(** * Lazy singleton accessors of [C++/DesignPatterns/Singleton.cpp]

    The source file holds five classes, each called [Singleton], each with a
    static [getInstance()]:

    - example 1 (lines 7-24): lazy, no synchronisation;
    - example 2 (lines 30-50): a [std::lock_guard] around the whole body;
    - example 3 (lines 57-79): double-checked locking on a plain pointer;
    - example 4 (lines 86-114): double-checked locking on a
      [std::atomic<Singleton*>] with relaxed accesses and two fences;
    - example 5 (lines 121-133): a function-local static.

    The development has two layers.

    - [Seq]: every [getInstance()] as a state-passing function over the
      statics of its class, in a monad with exceptions (a failing
      [new Singleton()] / constructor) and blocking (a [lock()] on a held
      mutex).  This is what one thread observes when it is alone.
    - [Machine]: N threads, each running one call of [getInstance()], one
      source line per step, interleaved by a schedule.  Memory is a
      view-based model of the C++11 accesses the file uses: the slot keeps
      its modification order, a load may read any message not older than
      what the thread has already seen, a relaxed store carries the view of
      the last release fence, an acquire fence makes the views of the
      messages read so far current, and the mutex hands the view of the
      last [unlock()] to the next [lock()].  The plain accesses of
      examples 1 to 3 read and write whole pointers like relaxed ones but
      carry no view (the language leaves their races undefined); the
      local static of example 5 is initialised under the guard the
      language prescribes for it. *)

From Stdlib Require Import Lia.
From stdpp Require Import base option list sets.

Set Default Proof Using "Type".
Set Warnings "-clear-no-such-hyp".

(** ** Pointers *)

(** A [Singleton*] is null, the address of the n-th object obtained from
    [new], or the address of the function-local static of example 5. *)
Inductive ptr : Type :=
  | nullptr
  | heap_obj (n : nat)
  | static_obj.

#[global] Instance ptr_eq_dec : EqDecision ptr.
Proof. solve_decision. Defined.

Definition is_null (p : ptr) : bool :=
  match p with nullptr => true | _ => false end.

(** The five classes of the file. *)
Inductive variant : Type := V1 | V2 | V3 | V4 | V5.

#[global] Instance variant_eq_dec : EqDecision variant.
Proof. solve_decision. Defined.

(** The variants the comments of the file call thread-safe. *)
Definition correct (v : variant) : bool :=
  match v with V2 | V4 | V5 => true | V1 | V3 => false end.

(** ** Sequential layer *)

Module Seq.

(** The statics of a class: [m_instance], [m_mutex], the initialisation
    guard of the local static [instance] of example 5; and the objects
    whose constructor has run, oldest first (its length is the
    constructor-call counter). *)
Record world : Type := World {
  m_instance : ptr;
  m_mutex : bool;
  instance_guard : bool;
  constructed : list ptr
}.

(** [Singleton* Singleton::m_instance = nullptr;], the mutex free, the
    local static not yet initialised, nothing constructed. *)
Definition init : world :=
  {| m_instance := nullptr; m_mutex := false;
     instance_guard := false; constructed := [] |}.

Definition set_instance (p : ptr) (w : world) : world :=
  {| m_instance := p; m_mutex := m_mutex w;
     instance_guard := instance_guard w; constructed := constructed w |}.

Definition set_mutex (b : bool) (w : world) : world :=
  {| m_instance := m_instance w; m_mutex := b;
     instance_guard := instance_guard w; constructed := constructed w |}.

Definition add_constructed (p : ptr) (w : world) : world :=
  {| m_instance := m_instance w; m_mutex := m_mutex w;
     instance_guard := instance_guard w;
     constructed := constructed w ++ [p] |}.

Definition set_guard (b : bool) (w : world) : world :=
  {| m_instance := m_instance w; m_mutex := m_mutex w;
     instance_guard := b; constructed := constructed w |}.

(** How a call ends: it returns, an exception leaves it, or it waits for
    ever on the mutex. *)
Inductive outcome (A : Type) : Type :=
  | Ok (a : A)
  | Throw
  | Blocked.
Arguments Ok {A} a.
Arguments Throw {A}.
Arguments Blocked {A}.

#[global] Instance outcome_eq_dec `{EqDecision A} : EqDecision (outcome A).
Proof. solve_decision. Defined.

Definition M (A : Type) : Type := world → outcome A * world.

#[global] Instance M_ret : MRet M := λ A a w, (Ok a, w).

#[global] Instance M_bind : MBind M := λ A B f m w,
  match m w with
  | (Ok a, w') => f a w'
  | (Throw, w') => (Throw, w')
  | (Blocked, w') => (Blocked, w')
  end.

(** [m_instance] read, [m_instance = p]. *)
Definition load : M ptr := λ w, (Ok (m_instance w), w).
Definition store (p : ptr) : M unit := λ w, (Ok tt, set_instance p w).

(** [std::atomic_thread_fence]: nothing to do for a thread that is alone. *)
Definition fence : M unit := mret tt.

(** [new Singleton()]: when allocation and constructor succeed, a fresh
    object; otherwise the exception leaves the expression and nothing was
    constructed. *)
Definition new_Singleton (ctor_ok : bool) : M ptr := λ w,
  if ctor_ok
  then let p := heap_obj (length (constructed w)) in (Ok p, add_constructed p w)
  else (Throw, w).

(** [std::lock_guard<std::mutex> lock(m_mutex);] until the end of the
    enclosing block: the destructor unlocks on normal exit and on
    unwinding. *)
Definition lock_guard {A} (body : M A) : M A := λ w,
  if m_mutex w then (Blocked, w)
  else match body (set_mutex true w) with
       | (Blocked, w') => (Blocked, w')
       | (r, w') => (r, set_mutex false w')
       end.

(** [static Singleton instance;]: the first time control passes, the
    constructor runs; when it throws the variable stays uninitialised and
    the next pass tries again. *)
Definition static_local (ctor_ok : bool) : M unit := λ w,
  if instance_guard w then (Ok tt, w)
  else if ctor_ok
       then (Ok tt, set_guard true (add_constructed static_obj w))
       else (Throw, w).

End Seq.

(** ** Concurrent layer *)

Module Machine.

Definition tid : Type := nat.

(** What a thread has seen: a position in the modification order of
    [m_instance] below which it may no longer read, and the objects whose
    constructor writes are visible to it. *)
Record view : Type := View {
  v_slot : nat;
  v_objs : list ptr
}.

Definition bot : view := {| v_slot := 0; v_objs := [] |}.

Definition join (a b : view) : view :=
  {| v_slot := Nat.max (v_slot a) (v_slot b);
     v_objs := v_objs a ++ v_objs b |}.

(** A write to [m_instance]: the pointer and the view released with it. *)
Record msg : Type := Msg {
  val : ptr;
  mview : view
}.

(** The guard of a function-local static; while the initialiser runs it
    remembers the thread running it. *)
Inductive guard_state : Type := Uninit | InProgress (owner : tid) | Initialised.

(** The statics, shared by all threads: the writes to [m_instance] in
    modification order (the first is the static initialiser [nullptr]),
    the owner of [m_mutex] and the view left by the last [unlock()], the
    guard of the local static and the view of the thread that initialised
    it, and the objects constructed so far. *)
Record shared : Type := Shared {
  hist : list msg;
  mutex : option tid;
  mutex_view : view;
  guard : guard_state;
  guard_view : view;
  ctors : list ptr
}.

Definition shared0 : shared :=
  {| hist := [ {| val := nullptr; mview := bot |} ];
     mutex := None; mutex_view := bot;
     guard := Uninit; guard_view := bot;
     ctors := [] |}.

(** The locals of a thread: [tmp] (the pointer last loaded or obtained
    from [new]), its current view, the view gathered by relaxed loads and
    not yet made current by an acquire fence, and the view frozen by its
    last release fence. *)
Record regs : Type := Regs {
  tmp : ptr;
  cur : view;
  acq : view;
  rel : view
}.

Definition regs0 : regs :=
  {| tmp := nullptr; cur := bot; acq := bot; rel := bot |}.

Inductive mode : Type := Plain | Relaxed.
Inductive order : Type := Acquire | Release.

Inductive event : Type :=
  | EvLoad (p : ptr)
  | EvStore (p : ptr)
  | EvFence (o : order)
  | EvLock
  | EvUnlock
  | EvNew (p : ptr)
  | EvGuard (first : bool)
  | EvGuardDone
  | EvLocal.

(** One memory action of thread [t]; the number is the position a load
    reads from.  [None]: the action cannot happen now. *)
Definition act : Type := tid → nat → regs → shared → option (event * regs * shared).

(** A load of [m_instance] reads any message at or after the thread's
    position; a relaxed load also gathers the message's view. *)
Definition load (m : mode) : act := λ t i r σ,
  if v_slot (cur r) <=? i then
    match hist σ !! i with
    | Some w =>
        Some (EvLoad (val w),
              {| tmp := val w;
                 cur := {| v_slot := i; v_objs := v_objs (cur r) |};
                 acq := match m with
                        | Relaxed => join (acq r) (mview w)
                        | Plain => acq r
                        end;
                 rel := rel r |},
              σ)
    | None => None
    end
  else None.

(** A store of [tmp] to [m_instance] goes to the end of the modification
    order; a relaxed store carries the view of the last release fence, a
    plain one carries nothing. *)
Definition store (m : mode) : act := λ t _ r σ,
  let w := {| val := tmp r;
              mview := match m with Relaxed => rel r | Plain => bot end |} in
  Some (EvStore (tmp r),
        {| tmp := tmp r;
           cur := {| v_slot := length (hist σ); v_objs := v_objs (cur r) |};
           acq := acq r; rel := rel r |},
        {| hist := hist σ ++ [w];
           mutex := mutex σ; mutex_view := mutex_view σ;
           guard := guard σ; guard_view := guard_view σ;
           ctors := ctors σ |}).

(** [std::atomic_thread_fence]. *)
Definition fence (o : order) : act := λ t _ r σ,
  Some (EvFence o,
        match o with
        | Acquire => {| tmp := tmp r; cur := join (cur r) (acq r);
                        acq := acq r; rel := rel r |}
        | Release => {| tmp := tmp r; cur := cur r;
                        acq := acq r; rel := cur r |}
        end,
        σ).

(** Constructor of [std::lock_guard]: waits until the mutex is free. *)
Definition lock : act := λ t _ r σ,
  match mutex σ with
  | Some _ => None
  | None =>
      Some (EvLock,
            {| tmp := tmp r; cur := join (cur r) (mutex_view σ);
               acq := acq r; rel := rel r |},
            {| hist := hist σ;
               mutex := Some t; mutex_view := mutex_view σ;
               guard := guard σ; guard_view := guard_view σ;
               ctors := ctors σ |})
  end.

(** Destructor of [std::lock_guard]. *)
Definition unlock : act := λ t _ r σ,
  Some (EvUnlock, r,
        {| hist := hist σ;
           mutex := None; mutex_view := cur r;
           guard := guard σ; guard_view := guard_view σ;
           ctors := ctors σ |}).

(** Running the constructor on the object at [p]. *)
Definition construct (p : ptr) : act := λ t _ r σ,
  Some (EvNew p,
        {| tmp := p;
           cur := {| v_slot := v_slot (cur r); v_objs := v_objs (cur r) ++ [p] |};
           acq := acq r; rel := rel r |},
        {| hist := hist σ;
           mutex := mutex σ; mutex_view := mutex_view σ;
           guard := guard σ; guard_view := guard_view σ;
           ctors := ctors σ ++ [p] |}).

(** [new Singleton()]. *)
Definition new_Singleton : act := λ t i r σ,
  construct (heap_obj (length (ctors σ))) t i r σ.

(** The end of the initialisation of a local static. *)
Definition guard_release : act := λ t _ r σ,
  Some (EvGuardDone, r,
        {| hist := hist σ;
           mutex := mutex σ; mutex_view := mutex_view σ;
           guard := Initialised; guard_view := cur r;
           ctors := ctors σ |}).

(** A step that touches no shared state. *)
Definition local : act := λ t _ r σ, Some (EvLocal, r, σ).

(** Where a thread is: at a line of [getInstance()], or back in its
    caller with the pointer returned. *)
Inductive pcs (L : Type) : Type :=
  | At (l : L)
  | Returned (p : ptr).
Arguments At {L} l.
Arguments Returned {L} p.

(** One line: an action, then where to go. *)
Definition instr (L : Type) : Type :=
  tid → nat → regs → shared → option (event * pcs L * regs * shared).

Definition next {L} (a : act) (k : ptr → pcs L) : instr L := λ t i r σ,
  match a t i r σ with
  | Some (e, r', σ') => Some (e, k (tmp r'), r', σ')
  | None => None
  end.

Definition goto {L} (l : L) : ptr → pcs L := λ _, At l.

(** [if (tmp == nullptr) l1 else l2]. *)
Definition if_null {L} (l1 l2 : L) : ptr → pcs L :=
  λ p, if is_null p then At l1 else At l2.

(** [return tmp;] *)
Definition return_tmp {L} : ptr → pcs L := λ p, Returned p.

(** Control reaching the declaration of a local static: initialised, go
    on (and see what the initialising thread had seen); untouched, take
    the guard and run the initialiser; being initialised by another
    thread, wait. *)
Definition static_guard {L} (l_init l_done : L) : instr L := λ t _ r σ,
  match guard σ with
  | Initialised =>
      Some (EvGuard false, At l_done,
            {| tmp := tmp r; cur := join (cur r) (guard_view σ);
               acq := acq r; rel := rel r |},
            σ)
  | Uninit =>
      Some (EvGuard true, At l_init, r,
            {| hist := hist σ;
               mutex := mutex σ; mutex_view := mutex_view σ;
               guard := InProgress t; guard_view := guard_view σ;
               ctors := ctors σ |})
  | InProgress _ => None
  end.

Record thread (L : Type) : Type := Thread {
  pc : pcs L;
  rg : regs
}.
Arguments Thread {L} pc rg.
Arguments pc {L} _.
Arguments rg {L} _.

Record state (L : Type) : Type := State {
  threads : list (thread L);
  sh : shared
}.
Arguments State {L} threads sh.
Arguments threads {L} _.
Arguments sh {L} _.

(** The body of a [getInstance()]: its lines and the first of them. *)
Record program : Type := Program {
  label : Type;
  code : label → instr label;
  entry : label
}.

Section Run.
Context (P : program).

(** [n] threads about to call [getInstance()]. *)
Definition init (n : nat) : state (label P) :=
  {| threads := replicate n {| pc := At (entry P); rg := regs0 |};
     sh := shared0 |}.

(** Thread [t] executes its current line. *)
Definition step (t : tid) (i : nat) (s : state (label P))
  : option (event * state (label P)) :=
  match threads s !! t with
  | Some th =>
      match pc th with
      | At l =>
          match code P l t i (rg th) (sh s) with
          | Some (e, pc', r', σ') =>
              Some (e, {| threads := <[t := {| pc := pc'; rg := r' |}]> (threads s);
                          sh := σ' |})
          | None => None
          end
      | Returned _ => None
      end
  | None => None
  end.

(** A schedule names, step by step, the thread that moves (and the
    position it reads from, should the step be a load). *)
Fixpoint exec (sched : list (tid * nat)) (s : state (label P))
  : option (list (tid * event) * state (label P)) :=
  match sched with
  | [] => Some ([], s)
  | (t, i) :: sched' =>
      match step t i s with
      | Some (e, s') =>
          match exec sched' s' with
          | Some (tr, s'') => Some ((t, e) :: tr, s'')
          | None => None
          end
      | None => None
      end
  end.

Definition run (n : nat) (sched : list (tid * nat)) := exec sched (init n).

(** The pointer thread [t] got back, once it has returned. *)
Definition result (s : state (label P)) (t : tid) : option ptr :=
  match threads s !! t with
  | Some {| pc := Returned p |} => Some p
  | _ => None
  end.

Definition all_returned (s : state (label P)) : Prop :=
  ∀ t th, threads s !! t = Some th → ∃ p, pc th = Returned p.

End Run.

(** The events of one thread. *)
Definition proj (t : tid) (tr : list (tid * event)) : list event :=
  (filter (λ x, x.1 = t) tr).*2.

End Machine.

Import Seq.

(** ** The five [getInstance()]

    Each module gives the function twice: as the sequential function of one
    call, and line by line for the machine (labels are the line numbers of
    the source; a line doing two things has two labels). *)

(** Example 1, lines 16-21. *)
Module Lazy.

Definition getInstance (ctor_ok : bool) : M ptr :=
  p ← load;
  (if is_null p then q ← new_Singleton ctor_ok; store q else mret tt);;
  load.

Import Machine.

Inductive label : Type := L17 | L18 | L18_assign | L20.

Definition code (l : label) : instr label :=
  match l with
  | L17 => next (load Plain) (if_null L18 L20)
  | L18 => next new_Singleton (goto L18_assign)
  | L18_assign => next (store Plain) (goto L20)
  | L20 => next (load Plain) return_tmp
  end.

Definition prog : program := Program label code L17.

End Lazy.

(** Example 2, lines 40-46.  The [lock_guard] is destroyed after the
    operand of [return] has been read (label [L46], the closing brace). *)
Module Locked.

Definition getInstance (ctor_ok : bool) : M ptr :=
  lock_guard (
    p ← load;
    (if is_null p then q ← new_Singleton ctor_ok; store q else mret tt);;
    load).

Import Machine.

Inductive label : Type := L41 | L42 | L43 | L43_assign | L45 | L46.

Definition code (l : label) : instr label :=
  match l with
  | L41 => next lock (goto L42)
  | L42 => next (load Plain) (if_null L43 L45)
  | L43 => next new_Singleton (goto L43_assign)
  | L43_assign => next (store Plain) (goto L45)
  | L45 => next (load Plain) (goto L46)
  | L46 => next unlock return_tmp
  end.

Definition prog : program := Program label code L41.

End Locked.

(** Example 3, lines 67-75.  The [lock_guard] lives in the block of the
    outer [if] and is destroyed at its closing brace, line 73. *)
Module DCLP.

Definition getInstance (ctor_ok : bool) : M ptr :=
  p ← load;
  (if is_null p
   then lock_guard (
          p' ← load;
          if is_null p' then q ← new_Singleton ctor_ok; store q else mret tt)
   else mret tt);;
  load.

Import Machine.

Inductive label : Type := L68 | L69 | L70 | L71 | L71_assign | L73 | L74.

Definition code (l : label) : instr label :=
  match l with
  | L68 => next (load Plain) (if_null L69 L74)
  | L69 => next lock (goto L70)
  | L70 => next (load Plain) (if_null L71 L73)
  | L71 => next new_Singleton (goto L71_assign)
  | L71_assign => next (store Plain) (goto L73)
  | L73 => next unlock (goto L74)
  | L74 => next (load Plain) return_tmp
  end.

Definition prog : program := Program label code L68.

End DCLP.

(** Example 4, lines 96-110.  The [lock_guard] is destroyed at line 108. *)
Module Fenced.

Definition getInstance (ctor_ok : bool) : M ptr :=
  tmp ← load;
  fence;;
  if is_null tmp
  then lock_guard (
         tmp ← load;
         if is_null tmp
         then tmp ← new_Singleton ctor_ok;
              fence;;
              store tmp;;
              mret tmp
         else mret tmp)
  else mret tmp.

Import Machine.

Inductive label : Type :=
  L97 | L98 | L100 | L101 | L102 | L103 | L104 | L105 | L106 | L108 | L109.

Definition code (l : label) : instr label :=
  match l with
  | L97 => next (load Relaxed) (goto L98)
  | L98 => next (fence Acquire) (goto L100)
  | L100 => next local (if_null L101 L109)
  | L101 => next lock (goto L102)
  | L102 => next (load Relaxed) (goto L103)
  | L103 => next local (if_null L104 L108)
  | L104 => next new_Singleton (goto L105)
  | L105 => next (fence Release) (goto L106)
  | L106 => next (store Relaxed) (goto L108)
  | L108 => next unlock (goto L109)
  | L109 => next local return_tmp
  end.

Definition prog : program := Program label code L97.

End Fenced.

(** Example 5, lines 123-126.  Line 124 is the guard of the local static,
    then (for the thread that took it) the constructor and the release of
    the guard. *)
Module Meyers.

Definition getInstance (ctor_ok : bool) : M ptr :=
  static_local ctor_ok;;
  mret static_obj.

Import Machine.

Inductive label : Type := L124 | L124_ctor | L124_done | L125.

Definition code (l : label) : instr label :=
  match l with
  | L124 => static_guard L124_ctor L125
  | L124_ctor => next (construct static_obj) (goto L124_done)
  | L124_done => next guard_release (goto L125)
  | L125 => next local (λ _, Returned static_obj)
  end.

Definition prog : program := Program label code L124.

End Meyers.

Definition getInstance (v : variant) : bool → M ptr :=
  match v with
  | V1 => Lazy.getInstance
  | V2 => Locked.getInstance
  | V3 => DCLP.getInstance
  | V4 => Fenced.getInstance
  | V5 => Meyers.getInstance
  end.

Definition prog (v : variant) : Machine.program :=
  match v with
  | V1 => Lazy.prog
  | V2 => Locked.prog
  | V3 => DCLP.prog
  | V4 => Fenced.prog
  | V5 => Meyers.prog
  end.

(** The handle slot of a variant: [m_instance] for the heap variants; for
    example 5 the local static once its guard is set. *)
Definition slot (v : variant) (w : world) : ptr :=
  match v with
  | V5 => if instance_guard w then static_obj else nullptr
  | _ => m_instance w
  end.

(** Successive calls by one thread; [oks] says for each call whether a
    construction attempted in it succeeds. *)
Fixpoint calls (v : variant) (oks : list bool) (w : world)
  : list (outcome ptr) * world :=
  match oks with
  | [] => ([], w)
  | ok :: oks' =>
      let '(r, w') := getInstance v ok w in
      let '(rs, w'') := calls v oks' w' in
      (r :: rs, w'')
  end.

(** The object a construction in state [w] would produce. *)
Definition fresh (v : variant) (w : world) : ptr :=
  match v with
  | V5 => static_obj
  | _ => heap_obj (length (constructed w))
  end.

(** The state after a successful construction from an unset slot. *)
Definition install (v : variant) (w : world) : world :=
  match v with
  | V5 => set_guard true (add_constructed static_obj w)
  | _ => set_instance (fresh v w) (add_constructed (fresh v w) w)
  end.

(** The slot is unset or refers to an object whose constructor has run. *)
Definition slot_ok (v : variant) (w : world) : Prop :=
  slot v w = nullptr ∨ slot v w ∈ constructed w.

(** What a test sees of a run of calls: which results are the same
    (outcome and identity), and the constructor-call counter. *)
Definition observe (run : list (outcome ptr) * world) : list (list bool) * nat :=
  (map (λ r, map (λ r', bool_decide (r = r')) run.1) run.1,
   length (constructed run.2)).

(** ** The contract of the specification

    Written from the words of the specification, to be compared with the
    functions above: its sections 3 and 4.1 describe one handle slot,
    "unset" or a reference to the one Instance, and [getInstance()] that
    constructs on the first call and returns that reference on every call;
    section 7 lets a failed construction propagate and leave the slot
    unset.  [p] names the Instance a construction yields. *)
Module Spec.

Record handle : Type := Handle {
  h_slot : option ptr;
  h_count : nat
}.

Definition unset : handle := {| h_slot := None; h_count := 0 |}.

Definition getInstance (p : ptr) (ctor_ok : bool) (h : handle)
  : outcome ptr * handle :=
  match h_slot h with
  | Some q => (Ok q, h)
  | None =>
      if ctor_ok
      then (Ok p, {| h_slot := Some p; h_count := S (h_count h) |})
      else (Throw, h)
  end.

Fixpoint calls (p : ptr) (oks : list bool) (h : handle)
  : list (outcome ptr) * handle :=
  match oks with
  | [] => ([], h)
  | ok :: oks' =>
      let '(r, h') := getInstance p ok h in
      let '(rs, h'') := calls p oks' h' in
      (r :: rs, h'')
  end.

End Spec.

(** The handle a world stands for. *)
Definition abs (v : variant) (w : world) : Spec.handle :=
  {| Spec.h_slot := if is_null (slot v w) then None else Some (slot v w);
     Spec.h_count := length (constructed w) |}.

(** The results of the contract from an unset handle are [Throw] or the one
    Instance; [shape] forgets the name of the Instance. *)
Definition shape (r : outcome ptr) : outcome unit :=
  match r with Ok _ => Ok tt | Throw => Throw | Blocked => Blocked end.

(** ** Invariants of the executions *)

Module Inv.
Import Machine.

(** Thread [t] holds the mutex. *)
Definition holds (σ : shared) (t : tid) : Prop := mutex σ = Some t.

(** The thread has seen the newest write to [m_instance]. *)
Definition latest (σ : shared) (r : regs) : Prop :=
  v_slot (cur r) + 1 = length (hist σ).

(** [p] is the pointer stored to [m_instance] (by the one store there is). *)
Definition published (σ : shared) (p : ptr) : Prop :=
  ∃ m, hist σ !! 1 = Some m ∧ val m = p.

(** The constructor writes of [p] are visible to the thread. *)
Definition sees (r : regs) (p : ptr) : Prop := p ∈ v_objs (cur r).

(** The views of a thread lie within the modification order. *)
Definition views_ok (σ : shared) (r : regs) : Prop :=
  v_slot (cur r) < length (hist σ)
  ∧ v_slot (acq r) < length (hist σ)
  ∧ v_slot (rel r) < length (hist σ).

(** The statics of the variants with a mutex: [m_instance] was initialised
    to null and stored to at most once, with the one constructed object;
    the stored message satisfies [Φ]; when the mutex is free, the slot is
    set exactly when an object has been constructed, and the view left in
    the mutex has seen the newest write and the constructed object. *)
Definition slot_inv (Φ : msg → Prop) (σ : shared) : Prop :=
  hist σ !! 0 = Some {| val := nullptr; mview := bot |}
  ∧ length (hist σ) ≤ 2
  ∧ (∀ m, hist σ !! 1 = Some m →
       val m ≠ nullptr ∧ ctors σ = [val m] ∧ v_slot (mview m) ≤ 1 ∧ Φ m)
  ∧ length (ctors σ) ≤ 1
  ∧ (mutex σ = None →
       length (ctors σ) + 1 = length (hist σ)
       ∧ v_slot (mutex_view σ) + 1 = length (hist σ)
       ∧ ∀ p, p ∈ ctors σ → p ∈ v_objs (mutex_view σ)).

(** What holds of a thread of example 2 at each line. *)
Definition locked_inv (σ : shared) (t : tid) (th : thread Locked.label) : Prop :=
  let r := rg th in
  views_ok σ r ∧
  match pc th with
  | At Locked.L41 => True
  | At Locked.L42 =>
      holds σ t ∧ latest σ r ∧ length (ctors σ) + 1 = length (hist σ)
      ∧ ∀ p, p ∈ ctors σ → sees r p
  | At Locked.L43 => holds σ t ∧ length (hist σ) = 1 ∧ ctors σ = []
  | At Locked.L43_assign =>
      holds σ t ∧ length (hist σ) = 1 ∧ ctors σ = [tmp r]
      ∧ tmp r ≠ nullptr ∧ sees r (tmp r)
  | At Locked.L45 =>
      holds σ t ∧ latest σ r ∧ length (hist σ) = 2
      ∧ ∀ p, p ∈ ctors σ → sees r p
  | At Locked.L46 =>
      holds σ t ∧ latest σ r ∧ published σ (tmp r) ∧ sees r (tmp r)
  | Returned p => published σ p ∧ sees r p
  end.

(** The message carries the constructor writes of the pointer it holds. *)
Definition released (m : msg) : Prop := val m ∈ v_objs (mview m).

(** What holds of a thread of example 4 at each line. *)
Definition fenced_inv (σ : shared) (t : tid) (th : thread Fenced.label) : Prop :=
  let r := rg th in
  views_ok σ r ∧
  match pc th with
  | At Fenced.L97 => True
  | At Fenced.L98 =>
      tmp r ≠ nullptr → published σ (tmp r) ∧ tmp r ∈ v_objs (acq r)
  | At Fenced.L100 =>
      tmp r ≠ nullptr → published σ (tmp r) ∧ sees r (tmp r)
  | At Fenced.L101 => True
  | At Fenced.L102 =>
      holds σ t ∧ latest σ r ∧ length (ctors σ) + 1 = length (hist σ)
      ∧ ∀ p, p ∈ ctors σ → sees r p
  | At Fenced.L103 =>
      holds σ t ∧ latest σ r ∧ length (ctors σ) + 1 = length (hist σ)
      ∧ (∀ p, p ∈ ctors σ → sees r p)
      ∧ ∃ m, hist σ !! v_slot (cur r) = Some m ∧ val m = tmp r
  | At Fenced.L104 => holds σ t ∧ length (hist σ) = 1 ∧ ctors σ = []
  | At Fenced.L105 =>
      holds σ t ∧ length (hist σ) = 1 ∧ ctors σ = [tmp r]
      ∧ tmp r ≠ nullptr ∧ sees r (tmp r)
  | At Fenced.L106 =>
      holds σ t ∧ length (hist σ) = 1 ∧ ctors σ = [tmp r]
      ∧ tmp r ≠ nullptr ∧ sees r (tmp r) ∧ tmp r ∈ v_objs (rel r)
  | At Fenced.L108 =>
      holds σ t ∧ latest σ r ∧ published σ (tmp r) ∧ sees r (tmp r)
  | At Fenced.L109 => published σ (tmp r) ∧ sees r (tmp r)
  | Returned p => published σ p ∧ sees r p
  end.

(** What holds of a thread of example 3 at each line. *)
Definition dclp_inv (σ : shared) (t : tid) (th : thread DCLP.label) : Prop :=
  let r := rg th in
  views_ok σ r ∧
  match pc th with
  | At DCLP.L68 => True
  | At DCLP.L69 => True
  | At DCLP.L70 =>
      holds σ t ∧ latest σ r ∧ length (ctors σ) + 1 = length (hist σ)
      ∧ ∀ p, p ∈ ctors σ → sees r p
  | At DCLP.L71 => holds σ t ∧ length (hist σ) = 1 ∧ ctors σ = []
  | At DCLP.L71_assign =>
      holds σ t ∧ length (hist σ) = 1 ∧ ctors σ = [tmp r]
      ∧ tmp r ≠ nullptr ∧ sees r (tmp r)
  | At DCLP.L73 =>
      holds σ t ∧ latest σ r ∧ length (hist σ) = 2
      ∧ ∀ p, p ∈ ctors σ → sees r p
  | At DCLP.L74 => latest σ r ∧ length (hist σ) = 2
  | Returned p => published σ p
  end.

(** The statics of example 5: the local static is constructed once, by the
    thread that took the guard, and the guard is released with a view that
    has seen the construction. *)
Definition guard_inv (σ : shared) : Prop :=
  match guard σ with
  | Uninit => ctors σ = []
  | InProgress _ => length (ctors σ) ≤ 1
  | Initialised => ctors σ = [static_obj] ∧ static_obj ∈ v_objs (guard_view σ)
  end.

(** What holds of a thread of example 5 at each line. *)
Definition meyers_inv (σ : shared) (t : tid) (th : thread Meyers.label) : Prop :=
  let r := rg th in
  match pc th with
  | At Meyers.L124 => True
  | At Meyers.L124_ctor => guard σ = InProgress t ∧ ctors σ = []
  | At Meyers.L124_done =>
      guard σ = InProgress t ∧ ctors σ = [static_obj] ∧ sees r static_obj
  | At Meyers.L125 => guard σ = Initialised ∧ sees r static_obj
  | Returned p => p = static_obj ∧ guard σ = Initialised ∧ sees r p
  end.

(** A schedule for example 4 with 32 threads: every thread makes its first
    check while the slot is still unset (lines 97-100), then they pass the
    mutex one after the other; thread 0 constructs, the others find the
    slot set at the second check. *)
Definition window32 : list (nat * nat) :=
  flat_map (λ t, replicate 3 (t, 0)) (seq 0 32)
  ++ replicate 8 (0, 0)
  ++ flat_map (λ t, replicate 5 (t, 1)) (seq 1 31).

(** The events of a call of example 3 up to line 74, by the path taken:
    the first check finds the slot set; the first check finds it unset and
    the check under the mutex finds it set; both find it unset. *)
Definition dclp_fast (q : ptr) : list event := [EvLoad q].

Definition dclp_recheck (q : ptr) : list event :=
  [EvLoad nullptr; EvLock; EvLoad q; EvUnlock].

Definition dclp_construct (q : ptr) : list event :=
  [EvLoad nullptr; EvLock; EvLoad nullptr; EvNew q; EvStore q; EvUnlock].

Definition dclp_path (evs : list event) : Prop :=
  ∃ q, (q ≠ nullptr ∧ evs = dclp_fast q)
       ∨ (q ≠ nullptr ∧ evs = dclp_recheck q)
       ∨ evs = dclp_construct q.

(** The events of a thread of example 3, by the line it is at. *)
Definition dclp_trace (evs : list event) (th : thread DCLP.label) : Prop :=
  let q := tmp (rg th) in
  match pc th with
  | At DCLP.L68 => evs = []
  | At DCLP.L69 => evs = [EvLoad nullptr]
  | At DCLP.L70 => evs = [EvLoad nullptr; EvLock]
  | At DCLP.L71 => evs = [EvLoad nullptr; EvLock; EvLoad nullptr]
  | At DCLP.L71_assign =>
      evs = [EvLoad nullptr; EvLock; EvLoad nullptr; EvNew q]
  | At DCLP.L73 =>
      evs = [EvLoad nullptr; EvLock; EvLoad nullptr; EvNew q; EvStore q]
      ∨ (q ≠ nullptr ∧ evs = [EvLoad nullptr; EvLock; EvLoad q])
  | At DCLP.L74 => dclp_path evs
  | Returned p => ∃ evs', dclp_path evs' ∧ evs = evs' ++ [EvLoad p]
  end.

(** The same for example 4, up to line 109. *)
Definition fenced_fast (q : ptr) : list event :=
  [EvLoad q; EvFence Acquire; EvLocal].

Definition fenced_recheck (q : ptr) : list event :=
  [EvLoad nullptr; EvFence Acquire; EvLocal; EvLock; EvLoad q; EvLocal; EvUnlock].

Definition fenced_construct (q : ptr) : list event :=
  [EvLoad nullptr; EvFence Acquire; EvLocal; EvLock; EvLoad nullptr; EvLocal;
   EvNew q; EvFence Release; EvStore q; EvUnlock].

Definition fenced_path (q : ptr) (evs : list event) : Prop :=
  (q ≠ nullptr ∧ evs = fenced_fast q)
  ∨ (q ≠ nullptr ∧ evs = fenced_recheck q)
  ∨ evs = fenced_construct q.

Definition fenced_trace (evs : list event) (th : thread Fenced.label) : Prop :=
  let q := tmp (rg th) in
  match pc th with
  | At Fenced.L97 => evs = []
  | At Fenced.L98 => evs = [EvLoad q]
  | At Fenced.L100 => evs = [EvLoad q; EvFence Acquire]
  | At Fenced.L101 => evs = [EvLoad nullptr; EvFence Acquire; EvLocal]
  | At Fenced.L102 => evs = [EvLoad nullptr; EvFence Acquire; EvLocal; EvLock]
  | At Fenced.L103 =>
      evs = [EvLoad nullptr; EvFence Acquire; EvLocal; EvLock; EvLoad q]
  | At Fenced.L104 =>
      evs = [EvLoad nullptr; EvFence Acquire; EvLocal; EvLock; EvLoad nullptr;
             EvLocal]
  | At Fenced.L105 =>
      evs = [EvLoad nullptr; EvFence Acquire; EvLocal; EvLock; EvLoad nullptr;
             EvLocal; EvNew q]
  | At Fenced.L106 =>
      evs = [EvLoad nullptr; EvFence Acquire; EvLocal; EvLock; EvLoad nullptr;
             EvLocal; EvNew q; EvFence Release]
  | At Fenced.L108 =>
      evs = [EvLoad nullptr; EvFence Acquire; EvLocal; EvLock; EvLoad nullptr;
             EvLocal; EvNew q; EvFence Release; EvStore q]
      ∨ (q ≠ nullptr
         ∧ evs = [EvLoad nullptr; EvFence Acquire; EvLocal; EvLock; EvLoad q;
                  EvLocal])
  | At Fenced.L109 => fenced_path q evs
  | Returned p => ∃ evs', fenced_path p evs' ∧ evs = evs' ++ [EvLocal]
  end.

(** The handle slot in the machine: the newest write to [m_instance]; for
    example 5 the local static once its guard is released. *)
Definition slot_now (v : variant) (σ : shared) : ptr :=
  match v with
  | V5 => match guard σ with Initialised => static_obj | _ => nullptr end
  | _ => match last (hist σ) with Some m => val m | None => nullptr end
  end.

(** The slot is written only while it is null, and what a call returns is
    what the slot holds. *)
Definition write_once (v : variant) : Prop :=
  ∀ n sched tr s,
    run (prog v) n sched = Some (tr, s) →
    (∀ t i e s',
       step (prog v) t i s = Some (e, s') →
       slot_now v (sh s) ≠ nullptr →
       slot_now v (sh s') = slot_now v (sh s))
    ∧ (∀ t p, result (prog v) s t = Some p → slot_now v (sh s) = p).

(** The statics of example 1: every write to [m_instance] after the static
    initialiser stores a constructed object. *)
Definition lazy_slot_inv (σ : shared) : Prop :=
  hist σ !! 0 = Some {| val := nullptr; mview := bot |}
  ∧ ∀ i m, hist σ !! S i = Some m → val m ≠ nullptr ∧ val m ∈ ctors σ.

(** What holds of a thread of example 1 at each line. *)
Definition lazy_inv (σ : shared) (t : tid) (th : thread Lazy.label) : Prop :=
  let r := rg th in
  v_slot (cur r) < length (hist σ) ∧
  match pc th with
  | At Lazy.L17 => True
  | At Lazy.L18 => True
  | At Lazy.L18_assign => tmp r ≠ nullptr ∧ tmp r ∈ ctors σ
  | At Lazy.L20 => 1 ≤ v_slot (cur r)
  | Returned p => p ≠ nullptr ∧ p ∈ ctors σ
  end.

(** Two threads of example 1 both pass the null check before either
    stores. *)
Definition lazy_race : list (nat * nat) :=
  [(0, 0); (1, 0); (0, 0); (1, 0); (0, 0)].

(** Three threads of example 3: threads 0 and 1 make the first check while
    the slot is unset, thread 0 constructs, thread 1 finds the slot set
    under the mutex, thread 2 arrives later and reads the new pointer. *)
Definition dclp_three : list (nat * nat) :=
  [(0, 0); (1, 0)] ++ replicate 5 (0, 0) ++ [(0, 1)]
  ++ replicate 4 (1, 1) ++ replicate 2 (2, 1).

(** An upper bound on the steps a thread still takes, by the line it is
    at. *)
Definition steps_left (v : variant) : pcs (label (prog v)) → nat :=
  match v with
  | V1 => λ pc, match pc with
                | At Lazy.L17 => 4 | At Lazy.L18 => 3
                | At Lazy.L18_assign => 2 | At Lazy.L20 => 1
                | Returned _ => 0
                end
  | V2 => λ pc, match pc with
                | At Locked.L41 => 6 | At Locked.L42 => 5 | At Locked.L43 => 4
                | At Locked.L43_assign => 3 | At Locked.L45 => 2
                | At Locked.L46 => 1
                | Returned _ => 0
                end
  | V3 => λ pc, match pc with
                | At DCLP.L68 => 7 | At DCLP.L69 => 6 | At DCLP.L70 => 5
                | At DCLP.L71 => 4 | At DCLP.L71_assign => 3
                | At DCLP.L73 => 2 | At DCLP.L74 => 1
                | Returned _ => 0
                end
  | V4 => λ pc, match pc with
                | At Fenced.L97 => 11 | At Fenced.L98 => 10
                | At Fenced.L100 => 9 | At Fenced.L101 => 8
                | At Fenced.L102 => 7 | At Fenced.L103 => 6
                | At Fenced.L104 => 5 | At Fenced.L105 => 4
                | At Fenced.L106 => 3 | At Fenced.L108 => 2
                | At Fenced.L109 => 1
                | Returned _ => 0
                end
  | V5 => λ pc, match pc with
                | At Meyers.L124 => 4 | At Meyers.L124_ctor => 3
                | At Meyers.L124_done => 2 | At Meyers.L125 => 1
                | Returned _ => 0
                end
  end.

(** The lines between [lock()] and [unlock()], and between taking and
    releasing the guard of the local static. *)
Definition in_cs (v : variant) : pcs (label (prog v)) → bool :=
  match v with
  | V1 => λ _, false
  | V2 => λ pc, match pc with
                | At Locked.L42 | At Locked.L43 | At Locked.L43_assign
                | At Locked.L45 | At Locked.L46 => true
                | _ => false
                end
  | V3 => λ pc, match pc with
                | At DCLP.L70 | At DCLP.L71 | At DCLP.L71_assign
                | At DCLP.L73 => true
                | _ => false
                end
  | V4 => λ pc, match pc with
                | At Fenced.L102 | At Fenced.L103 | At Fenced.L104
                | At Fenced.L105 | At Fenced.L106 | At Fenced.L108 => true
                | _ => false
                end
  | V5 => λ pc, match pc with
                | At Meyers.L124_ctor | At Meyers.L124_done => true
                | _ => false
                end
  end.

(** Who holds the mutex (for example 5: the guard of the local static). *)
Definition owner (v : variant) (σ : shared) : option tid :=
  match v with
  | V5 => match guard σ with InProgress t => Some t | _ => None end
  | _ => mutex σ
  end.

(** The holder is a thread inside the critical lines. *)
Definition owner_inv (v : variant) (s : state (label (prog v))) : Prop :=
  ∀ t, owner v (sh s) = Some t →
    ∃ th, threads s !! t = Some th ∧ in_cs v (pc th) = true.

(** The schedule of one thread running its call alone: every load reads
    the newest message. *)
Definition solo_schedule (v : variant) : list (nat * nat) :=
  match v with
  | V1 => [(0, 0); (0, 0); (0, 0); (0, 1)]
  | V2 => [(0, 0); (0, 0); (0, 0); (0, 0); (0, 1); (0, 0)]
  | V3 => replicate 6 (0, 0) ++ [(0, 1)]
  | V4 => replicate 11 (0, 0)
  | V5 => replicate 4 (0, 0)
  end.

End Inv.

Import Inv.

(** ** Further definitions: events of examples 1, 2 and 5, schedules,
    counters *)

Module Cover.
Import Machine Inv.

(** The events of a call of example 2 up to its return: the mutex is taken
    first and released last, whether the slot was set or not. *)
Definition locked_found (q p : ptr) : list event :=
  [EvLock; EvLoad q; EvLoad p; EvUnlock].

Definition locked_construct (q p : ptr) : list event :=
  [EvLock; EvLoad nullptr; EvNew q; EvStore q; EvLoad p; EvUnlock].

(** The events of a thread of example 2, by the line it is at. *)
Definition locked_trace (evs : list event) (th : thread Locked.label) : Prop :=
  let q := tmp (rg th) in
  match pc th with
  | At Locked.L41 => evs = []
  | At Locked.L42 => evs = [EvLock]
  | At Locked.L43 => evs = [EvLock; EvLoad nullptr]
  | At Locked.L43_assign => evs = [EvLock; EvLoad nullptr; EvNew q]
  | At Locked.L45 =>
      (∃ q', q' ≠ nullptr ∧ evs = [EvLock; EvLoad q'])
      ∨ evs = [EvLock; EvLoad nullptr; EvNew q; EvStore q]
  | At Locked.L46 =>
      (∃ q', q' ≠ nullptr ∧ evs = [EvLock; EvLoad q'; EvLoad q])
      ∨ (∃ q', evs = [EvLock; EvLoad nullptr; EvNew q'; EvStore q'; EvLoad q])
  | Returned p =>
      ∃ q', (q' ≠ nullptr ∧ evs = locked_found q' p)
            ∨ evs = locked_construct q' p
  end.

(** The events of a thread of example 1, by the line it is at. *)
Definition lazy_trace (evs : list event) (th : thread Lazy.label) : Prop :=
  let q := tmp (rg th) in
  match pc th with
  | At Lazy.L17 => evs = []
  | At Lazy.L18 => evs = [EvLoad nullptr]
  | At Lazy.L18_assign => evs = [EvLoad nullptr; EvNew q]
  | At Lazy.L20 =>
      (∃ q', q' ≠ nullptr ∧ evs = [EvLoad q'])
      ∨ evs = [EvLoad nullptr; EvNew q; EvStore q]
  | Returned p =>
      ∃ q', (q' ≠ nullptr ∧ evs = [EvLoad q'; EvLoad p])
            ∨ evs = [EvLoad nullptr; EvNew q'; EvStore q'; EvLoad p]
  end.

(** The events of a thread of example 5, by the line it is at. *)
Definition meyers_trace (evs : list event) (th : thread Meyers.label) : Prop :=
  match pc th with
  | At Meyers.L124 => evs = []
  | At Meyers.L124_ctor => evs = [EvGuard true]
  | At Meyers.L124_done => evs = [EvGuard true; EvNew static_obj]
  | At Meyers.L125 =>
      evs = [EvGuard false]
      ∨ evs = [EvGuard true; EvNew static_obj; EvGuardDone]
  | Returned p =>
      p = static_obj
      ∧ (evs = [EvGuard false; EvLocal]
         ∨ evs = [EvGuard true; EvNew static_obj; EvGuardDone; EvLocal])
  end.

(** Example 3: thread 0 runs its call to the end, then thread 1 makes its
    first check and returns. *)
Definition dclp_late_reader : list (nat * nat) :=
  replicate 6 (0, 0) ++ [(0, 1); (1, 1); (1, 1)].

(** The race of example 1, both threads run to the end. *)
Definition lazy_race_complete : list (nat * nat) :=
  lazy_race ++ [(1, 0); (0, 1); (1, 2)].

(** A thread of example 1 that has not yet passed [new Singleton()]. *)
Definition may_construct (pc : pcs Lazy.label) : nat :=
  match pc with
  | At Lazy.L17 | At Lazy.L18 => 1
  | _ => 0
  end.

(** The names of the constructed objects: heap objects are numbered in the
    order of their construction; example 5 constructs only its static. *)
Definition ctors_named (v : variant) (σ : shared) : Prop :=
  match v with
  | V5 => ∀ q, q ∈ ctors σ → q = static_obj
  | _ => ∀ k q, ctors σ !! k = Some q → q = heap_obj k
  end.

(** The statics a variant does not use stay as they were initialised. *)
Definition unused_statics (v : variant) (σ : shared) : Prop :=
  match v with
  | V1 => mutex σ = None ∧ guard σ = Uninit
  | V5 => mutex σ = None ∧ hist σ = hist shared0
  | _ => guard σ = Uninit
  end.

(** Example 1 with a single thread: the statics, by the line the thread is
    at. *)
Definition lazy_solo (σ : shared) (th : thread Lazy.label) : Prop :=
  let r := rg th in
  match pc th with
  | At Lazy.L17 | At Lazy.L18 => hist σ = hist shared0 ∧ ctors σ = []
  | At Lazy.L18_assign =>
      hist σ = hist shared0 ∧ ctors σ = [heap_obj 0] ∧ tmp r = heap_obj 0
  | At Lazy.L20 =>
      ctors σ = [heap_obj 0] ∧ 1 ≤ v_slot (cur r)
      ∧ ∀ i m, hist σ !! S i = Some m → val m = heap_obj 0
  | Returned p => p = heap_obj 0 ∧ ctors σ = [heap_obj 0]
  end.


(** The number of calls whose construction fails before the first one
    succeeds. *)
Fixpoint failures (oks : list bool) : nat :=
  match oks with
  | false :: oks' => S (failures oks')
  | _ => 0
  end.

End Cover.

Import Cover.

(** * Proofs *)

(** ** One thread *)

Lemma world_eta (w : world) :
  {| m_instance := m_instance w; m_mutex := m_mutex w;
     instance_guard := instance_guard w; constructed := constructed w |} = w.
Proof. by destruct w. Qed.

Ltac unfold_seq :=
  unfold getInstance, Lazy.getInstance, Locked.getInstance, DCLP.getInstance,
    Fenced.getInstance, Meyers.getInstance, lock_guard, static_local,
    new_Singleton, fence, load, store, mbind, M_bind, mret, M_ret,
    install, fresh, slot, set_instance, set_mutex, set_guard,
    add_constructed in *.

(** A call on a set slot returns the slot and changes nothing. *)
Lemma getInstance_set v ok w :
  m_mutex w = false → slot v w ≠ nullptr →
  getInstance v ok w = (Ok (slot v w), w).
Proof.
  destruct w as [p m g c]; simpl; intros -> Hs.
  destruct v; unfold_seq; simpl in *;
    try (destruct p; try done; simpl; done).
  destruct g; done.
Qed.

(** A call on an unset slot constructs, when construction succeeds. *)
Lemma getInstance_unset_ok v w :
  m_mutex w = false → slot v w = nullptr →
  getInstance v true w = (Ok (fresh v w), install v w).
Proof.
  destruct w as [p m g c]; simpl; intros -> Hs.
  destruct v; unfold_seq; simpl in *; subst; try done.
  destruct g; done.
Qed.

(** A call on an unset slot whose construction fails throws and changes
    nothing. *)
Lemma getInstance_unset_fail v w :
  m_mutex w = false → slot v w = nullptr →
  getInstance v false w = (Throw, w).
Proof.
  destruct w as [p m g c]; simpl; intros -> Hs.
  destruct v; unfold_seq; simpl in *; subst; try done.
  destruct g; done.
Qed.

Lemma fresh_not_null v w : fresh v w ≠ nullptr.
Proof. by destruct v. Qed.

Lemma install_mutex v w : m_mutex (install v w) = m_mutex w.
Proof. by destruct v. Qed.

Lemma install_slot v w : slot v (install v w) = fresh v w.
Proof. by destruct v. Qed.

Lemma install_constructed v w :
  constructed (install v w) = constructed w ++ [fresh v w].
Proof. by destruct v. Qed.

(** The three cases together: every call refines the contract. *)
Lemma getInstance_refines v ok w :
  m_mutex w = false →
  let '(r, w') := getInstance v ok w in
  Spec.getInstance (fresh v w) ok (abs v w) = (r, abs v w') ∧ m_mutex w' = false.
Proof.
  intros Hm. destruct (decide (slot v w = nullptr)) as [Hs|Hs].
  - destruct ok.
    + rewrite getInstance_unset_ok by done.
      unfold Spec.getInstance, abs. rewrite Hs, install_slot, install_constructed,
        install_mutex, length_app. simpl.
      destruct (fresh v w) eqn:E; simpl; try (split; [repeat f_equal; lia|done]).
      by destruct (fresh_not_null v w).
    + rewrite getInstance_unset_fail by done.
      unfold Spec.getInstance, abs. by rewrite Hs.
  - rewrite getInstance_set by done.
    unfold Spec.getInstance, abs. by destruct (slot v w).
Qed.

Example lazy_twice :
  calls V1 [true; true] init
  = ([Ok (heap_obj 0); Ok (heap_obj 0)],
     {| m_instance := heap_obj 0; m_mutex := false;
        instance_guard := false; constructed := [heap_obj 0] |}).
Proof. reflexivity. Qed.

Example fenced_fail_then_ok :
  calls V4 [false; true; false] init
  = ([Throw; Ok (heap_obj 0); Ok (heap_obj 0)],
     {| m_instance := heap_obj 0; m_mutex := false;
        instance_guard := false; constructed := [heap_obj 0] |}).
Proof. reflexivity. Qed.

Example meyers_observed :
  observe (calls V5 [false; true; true] init)
  = ([[true; false; false]; [false; true; true]; [false; true; true]], 1).
Proof. reflexivity. Qed.

Example locked_on_held_mutex :
  getInstance V2 true (set_mutex true init) = (Blocked, set_mutex true init).
Proof. reflexivity. Qed.

(** Once the slot is set the name of the fresh object no longer matters. *)
Lemma spec_calls_set p p' oks h q :
  Spec.h_slot h = Some q → Spec.calls p oks h = Spec.calls p' oks h.
Proof.
  intros Hq. induction oks as [|ok oks IH]; [done|].
  simpl. unfold Spec.getInstance. by rewrite Hq, IH.
Qed.

Lemma spec_calls_set_results p oks h q :
  Spec.h_slot h = Some q →
  Spec.calls p oks h = (replicate (length oks) (Ok q), h).
Proof.
  intros Hq. induction oks as [|ok oks IH]; [done|].
  simpl. unfold Spec.getInstance. by rewrite Hq, IH.
Qed.

(** A call that leaves the slot unset has changed nothing. *)
Lemma getInstance_still_unset v ok w :
  m_mutex w = false →
  slot v (getInstance v ok w).2 = nullptr → (getInstance v ok w).2 = w.
Proof.
  intros Hm. destruct (decide (slot v w = nullptr)) as [Hs|Hs].
  - destruct ok.
    + rewrite getInstance_unset_ok by done. simpl. rewrite install_slot.
      intros E. by destruct (fresh_not_null v w).
    + by rewrite getInstance_unset_fail.
  - by rewrite getInstance_set.
Qed.

Lemma abs_slot_Some v w :
  slot v w ≠ nullptr → Spec.h_slot (abs v w) = Some (slot v w).
Proof. unfold abs. simpl. by destruct (slot v w). Qed.

(** A run of calls by one thread refines the same run of the contract. *)
Lemma calls_refine v oks w :
  m_mutex w = false →
  Spec.calls (fresh v w) oks (abs v w)
  = ((calls v oks w).1, abs v (calls v oks w).2)
  ∧ m_mutex (calls v oks w).2 = false.
Proof.
  revert w. induction oks as [|ok oks IH]; intros w Hm; [done|].
  simpl. pose proof (getInstance_refines v ok w Hm) as Hr.
  pose proof (getInstance_still_unset v ok w Hm) as Hu.
  destruct (getInstance v ok w) as [r w1] eqn:E1. simpl in Hu.
  destruct Hr as [Hr Hm1]. rewrite Hr.
  destruct (IH w1 Hm1) as [IH1 IH2].
  assert (Spec.calls (fresh v w) oks (abs v w1)
          = Spec.calls (fresh v w1) oks (abs v w1)) as ->.
  { destruct (decide (slot v w1 = nullptr)) as [Hs|Hs].
    - by rewrite (Hu Hs).
    - eapply spec_calls_set, abs_slot_Some, Hs. }
  rewrite IH1. by destruct (calls v oks w1).
Qed.

Lemma spec_calls_all_ok p n :
  Spec.calls p (replicate (S n) true) Spec.unset
  = (replicate (S n) (Ok p), {| Spec.h_slot := Some p; Spec.h_count := 1 |}).
Proof.
  simpl. rewrite (spec_calls_set_results _ _ _ p) by done.
  by rewrite length_replicate.
Qed.

Lemma abs_count v w : Spec.h_count (abs v w) = length (constructed w).
Proof. done. Qed.

Lemma abs_init v : abs v init = Spec.unset.
Proof. by destruct v. Qed.

Lemma spec_results_form p oks h :
  Spec.h_slot h = None →
  Forall (λ r, r = Ok p ∨ r = Throw) (Spec.calls p oks h).1.
Proof.
  intros Hh. induction oks as [|[] oks IH]; simpl; [done| |].
  - unfold Spec.getInstance. rewrite Hh.
    rewrite (spec_calls_set_results _ _ _ p) by done. simpl.
    constructor; [by left|]. apply Forall_forall. intros r Hr.
    apply elem_of_replicate in Hr as [-> _]. by left.
  - unfold Spec.getInstance. rewrite Hh.
    destruct (Spec.calls p oks h). simpl in *. constructor; [by right|done].
Qed.

Lemma spec_results_shape p p' oks h h' :
  Spec.h_slot h = None → Spec.h_slot h' = None →
  Spec.h_count h = Spec.h_count h' →
  shape <$> (Spec.calls p oks h).1 = shape <$> (Spec.calls p' oks h').1
  ∧ Spec.h_count (Spec.calls p oks h).2 = Spec.h_count (Spec.calls p' oks h').2.
Proof.
  intros Hh Hh' Hc. induction oks as [|[] oks IH]; simpl; [done| |].
  - unfold Spec.getInstance. rewrite Hh, Hh'.
    rewrite (spec_calls_set_results _ _ _ p), (spec_calls_set_results _ _ _ p')
      by done.
    simpl. by rewrite !fmap_replicate, Hc.
  - unfold Spec.getInstance. rewrite Hh, Hh'.
    destruct (Spec.calls p oks h), (Spec.calls p' oks h').
    destruct IH as [IH1 IH2]. split; [|done]. simpl in *. by f_equal.
Qed.

Lemma pattern_shape p (rs : list (outcome ptr)) :
  Forall (λ r, r = Ok p ∨ r = Throw) rs →
  map (λ r, map (λ r', bool_decide (r = r')) rs) rs
  = map (λ r, map (λ r', bool_decide (r = r')) (shape <$> rs)) (shape <$> rs).
Proof.
  intros Hrs. rewrite map_map. apply map_ext_in. intros r Hr%list_elem_of_In.
  rewrite map_map. apply map_ext_in. intros r' Hr'%list_elem_of_In.
  rewrite Forall_forall in Hrs.
  destruct (Hrs r Hr) as [->| ->], (Hrs r' Hr') as [->| ->]; simpl;
    repeat case_bool_decide; congruence.
Qed.

Lemma calls_init_contract v oks :
  Spec.calls (fresh v init) oks Spec.unset
  = ((calls v oks init).1, abs v (calls v oks init).2)
  ∧ m_mutex (calls v oks init).2 = false.
Proof. rewrite <-(abs_init v). by apply calls_refine. Qed.

Lemma abs_set_inv v w p n :
  abs v w = {| Spec.h_slot := Some p; Spec.h_count := n |} →
  slot v w = p ∧ length (constructed w) = n.
Proof.
  unfold abs. destruct (slot v w) eqn:E; simpl; intros [= <- <-]; done.
Qed.

(** A second call on any state in which the first call returned. *)
Lemma second_call_same v ok1 ok2 w p w1 :
  m_mutex w = false →
  getInstance v ok1 w = (Ok p, w1) →
  getInstance v ok2 w1 = (Ok p, w1).
Proof.
  intros Hm E. destruct (decide (slot v w = nullptr)) as [Hs|Hs].
  - destruct ok1.
    + rewrite getInstance_unset_ok in E by done. injection E as <- <-.
      pose proof (getInstance_set v ok2 (install v w)) as H.
      rewrite install_slot, install_mutex in H. apply H; [done|].
      apply fresh_not_null.
    + by rewrite getInstance_unset_fail in E.
  - rewrite getInstance_set in E by done. injection E as <- <-.
    by apply getInstance_set.
Qed.

(** C3. Idempotence of the correct variants: on a fresh handle of V2, V4 or
    V5, once a first call has returned [p], a second call returns [p] too,
    leaves the state as it was, and the constructor has run exactly once. *)
Theorem idempotence (v : variant) (ok1 ok2 : bool) (p : ptr) (w1 : world) :
  correct v = true →
  getInstance v ok1 init = (Ok p, w1) →
  getInstance v ok2 w1 = (Ok p, w1)
  ∧ length (constructed w1) = 1
  ∧ length (constructed (getInstance v ok2 w1).2) = 1.
Proof.
  intros _ E.
  assert (getInstance v ok2 w1 = (Ok p, w1)) as E2
    by (by apply (second_call_same v ok1 ok2 init)).
  rewrite E2. split; [done|].
  assert (length (constructed w1) = 1) as H1; [|done].
  destruct ok1.
  - rewrite getInstance_unset_ok in E by (by destruct v).
    injection E as <- <-. by rewrite install_constructed.
  - by rewrite getInstance_unset_fail in E by (by destruct v).
Qed.

Lemma idempotence_witness :
  getInstance V4 false (getInstance V4 true init).2
  = (Ok (heap_obj 0), (getInstance V4 true init).2)
  ∧ length (constructed (getInstance V4 true init).2) = 1
  ∧ length (constructed (getInstance V4 false (getInstance V4 true init).2).2) = 1.
Proof.
  apply (idempotence V4 true false (heap_obj 0) (getInstance V4 true init).2);
    reflexivity.
Defined.

(** C4. Error atomicity: in every variant a call throws only when its
    construction fails on an unset slot; the exception reaches the caller,
    the statics are exactly as before (slot unset, mutex released, nothing
    constructed), and the next call constructs afresh; a call that returns
    returns a constructed object. *)
Theorem error_atomicity (v : variant) (w : world) :
  m_mutex w = false →
  slot v w = nullptr →
  getInstance v false w = (Throw, w)
  ∧ slot v (getInstance v false w).2 = nullptr
  ∧ (∃ p w', getInstance v true (getInstance v false w).2 = (Ok p, w')
             ∧ p ≠ nullptr ∧ slot v w' = p
             ∧ constructed w' = constructed w ++ [p])
  ∧ (∀ ok r w', getInstance v ok w = (r, w') →
       (r = Throw ∧ ok = false ∧ w' = w)
       ∨ (∃ p, r = Ok p ∧ ok = true ∧ p ≠ nullptr ∧ p ∈ constructed w')).
Proof.
  intros Hm Hs. rewrite getInstance_unset_fail by done. simpl.
  repeat split; [done| |].
  - exists (fresh v w), (install v w).
    rewrite getInstance_unset_ok by done.
    rewrite install_slot, install_constructed.
    repeat split. apply fresh_not_null.
  - intros [] r w' E.
    + right. rewrite getInstance_unset_ok in E by done. injection E as <- <-.
      exists (fresh v w). repeat split; [apply fresh_not_null|].
      rewrite install_constructed. set_solver.
    + left. rewrite getInstance_unset_fail in E by done. by injection E as <- <-.
Qed.

Lemma error_atomicity_witness :
  getInstance V2 false init = (Throw, init)
  ∧ slot V2 (getInstance V2 false init).2 = nullptr
  ∧ (∃ p w', getInstance V2 true (getInstance V2 false init).2 = (Ok p, w')
             ∧ p ≠ nullptr ∧ slot V2 w' = p
             ∧ constructed w' = constructed init ++ [p])
  ∧ (∀ ok r w', getInstance V2 ok init = (r, w') →
       (r = Throw ∧ ok = false ∧ w' = init)
       ∨ (∃ p, r = Ok p ∧ ok = true ∧ p ≠ nullptr ∧ p ∈ constructed w')).
Proof. apply (error_atomicity V2 init); reflexivity. Defined.

(** A call throws only when construction fails on an unset slot. *)
Lemma throw_only_on_failed_construction v ok w w' :
  m_mutex w = false →
  getInstance v ok w = (Throw, w') →
  ok = false ∧ slot v w = nullptr ∧ w' = w.
Proof.
  intros Hm E. destruct (decide (slot v w = nullptr)) as [Hs|Hs].
  - destruct ok.
    + by rewrite getInstance_unset_ok in E.
    + rewrite getInstance_unset_fail in E by done. by injection E as <-.
  - by rewrite getInstance_set in E.
Qed.

(** C6. Example 1 with one thread: from an unset slot, the first call
    constructs one object and every call returns that pointer; the mutex
    plays no part. *)
Theorem lazy_single_threaded (w : world) (n : nat) :
  m_instance w = nullptr →
  ∃ p w',
    p ≠ nullptr
    ∧ getInstance V1 true w = (Ok p, w')
    ∧ constructed w' = constructed w ++ [p]
    ∧ calls V1 (replicate (S n) true) w = (replicate (S n) (Ok p), w')
    ∧ m_instance w' = p
    ∧ m_mutex w' = m_mutex w.
Proof.
  intros Hs. destruct w as [q m g c]. simpl in Hs. subst q.
  set (p := heap_obj (length c)).
  set (w' := {| m_instance := p; m_mutex := m;
                instance_guard := g; constructed := c ++ [p] |}).
  assert (∀ k, calls V1 (replicate k true) w' = (replicate k (Ok p), w')) as Hk.
  { assert (getInstance V1 true w' = (Ok p, w')) as Hg by done.
    induction k as [|k IH]; [done|].
    change (replicate (S k) true) with (true :: replicate k true).
    cbn [calls]. by rewrite Hg, IH. }
  exists p, w'. split; [done|]. split; [done|]. split; [done|].
  split; [|done].
  change (replicate (S n) true) with (true :: replicate n true).
  cbn [calls].
  assert (getInstance V1 true {| m_instance := nullptr; m_mutex := m;
            instance_guard := g; constructed := c |} = (Ok p, w')) as -> by done.
  by rewrite Hk.
Qed.

Lemma lazy_single_threaded_witness :
  ∃ p w',
    p ≠ nullptr
    ∧ getInstance V1 true init = (Ok p, w')
    ∧ constructed w' = constructed init ++ [p]
    ∧ calls V1 (replicate 3 true) init = (replicate 3 (Ok p), w')
    ∧ m_instance w' = p
    ∧ m_mutex w' = m_mutex init.
Proof. apply (lazy_single_threaded init 2). reflexivity. Defined.

(** Calls on a set slot all return it. *)
Lemma calls_set v oks w :
  m_mutex w = false → slot v w ≠ nullptr →
  calls v oks w = (replicate (length oks) (Ok (slot v w)), w).
Proof.
  intros Hm Hs. induction oks as [|ok oks IH]; [done|].
  cbn [calls]. by rewrite getInstance_set, IH.
Qed.

(** Calls on an unset slot, no construction failing. *)
Lemma calls_all_ok v n w :
  m_mutex w = false → slot v w = nullptr →
  calls v (replicate (S n) true) w
  = (replicate (S n) (Ok (fresh v w)), install v w).
Proof.
  intros Hm Hs. change (replicate (S n) true) with (true :: replicate n true).
  cbn [calls]. rewrite getInstance_unset_ok by done.
  rewrite calls_set.
  - by rewrite install_slot, length_replicate.
  - by rewrite install_mutex.
  - rewrite install_slot. apply fresh_not_null.
Qed.

(** The heap variants are the same function of the statics while the
    mutex is free. *)
Lemma heap_variants_equal v v' ok w :
  v ≠ V5 → v' ≠ V5 → m_mutex w = false →
  getInstance v ok w = getInstance v' ok w.
Proof.
  intros Hv Hv' Hm.
  assert (slot v w = m_instance w ∧ slot v' w = m_instance w) as [Hs Hs']
    by (by destruct v, v').
  assert (fresh v' w = fresh v w ∧ install v' w = install v w) as [Hf Hi]
    by (by destruct v, v').
  destruct (decide (m_instance w = nullptr)) as [Hn|Hn].
  - destruct ok.
    + rewrite !getInstance_unset_ok by congruence. by rewrite Hf, Hi.
    + by rewrite !getInstance_unset_fail by congruence.
  - rewrite !getInstance_set by congruence. by rewrite Hs, Hs'.
Qed.

(** C8. One thread, unset slot: every variant refines the contract of the
    specification, call by call from any statics with the mutex free and
    run by run from the fresh statics, also when constructions fail; when
    no construction fails, the first call constructs the one Instance and
    all calls return it; any two variants give a test the same
    observations; and examples 1 to 4 are the same function of the statics
    (example 5 differs by the identity of its Instance, a local static). *)
Theorem sequential_equivalence (v v' : variant) (oks : list bool) (n : nat) :
  (∀ ok w, m_mutex w = false →
     Spec.getInstance (fresh v w) ok (abs v w)
     = ((getInstance v ok w).1, abs v (getInstance v ok w).2))
  ∧ Spec.calls (fresh v init) oks Spec.unset
    = ((calls v oks init).1, abs v (calls v oks init).2)
  ∧ (∃ p, p ≠ nullptr
        ∧ (getInstance v true init).1 = Ok p
        ∧ constructed (getInstance v true init).2 = [p]
        ∧ (calls v (replicate (S n) true) init).1 = replicate (S n) (Ok p)
        ∧ constructed (calls v (replicate (S n) true) init).2 = [p]
        ∧ slot v (calls v (replicate (S n) true) init).2 = p)
  ∧ observe (calls v oks init) = observe (calls v' oks init)
  ∧ (v ≠ V5 → v' ≠ V5 →
     ∀ ok w, m_mutex w = false → getInstance v ok w = getInstance v' ok w).
Proof.
  split.
  { intros ok w Hm. pose proof (getInstance_refines v ok w Hm) as Hr.
    destruct (getInstance v ok w). by destruct Hr. }
  split; [apply calls_init_contract|]. split; [|split].
  - exists (fresh v init). split; [apply fresh_not_null|].
    rewrite getInstance_unset_ok, calls_all_ok by (by destruct v).
    cbn [fst snd]. by rewrite install_constructed, install_slot.
  - unfold observe.
    destruct (calls_init_contract v oks) as [Hc _].
    destruct (calls_init_contract v' oks) as [Hc' _].
    pose proof (spec_results_form (fresh v init) oks Spec.unset eq_refl) as Hf.
    pose proof (spec_results_form (fresh v' init) oks Spec.unset eq_refl) as Hf'.
    destruct (spec_results_shape (fresh v init) (fresh v' init) oks
                Spec.unset Spec.unset eq_refl eq_refl eq_refl) as [Hsh Hcn].
    rewrite Hc in Hf, Hsh, Hcn. rewrite Hc' in Hf', Hsh, Hcn.
    cbn [fst snd] in *. rewrite !abs_count in Hcn.
    rewrite (pattern_shape _ _ Hf), (pattern_shape _ _ Hf'), Hsh.
    by rewrite Hcn.
  - intros Hv Hv' ok w Hm. by apply heap_variants_equal.
Qed.

(** The slot stays well formed, and a returned pointer is a constructed
    object. *)
Lemma getInstance_result_ok v ok w r w' :
  m_mutex w = false → slot_ok v w →
  getInstance v ok w = (r, w') →
  slot_ok v w' ∧ m_mutex w' = false
  ∧ ∀ p, r = Ok p → p ≠ nullptr ∧ p ∈ constructed w' ∧ p = slot v w'.
Proof.
  intros Hm Hok E. destruct (decide (slot v w = nullptr)) as [Hs|Hs].
  - destruct ok.
    + rewrite getInstance_unset_ok in E by done. injection E as <- <-.
      rewrite install_mutex. unfold slot_ok.
      rewrite install_slot, install_constructed.
      split; [right; set_solver|]. split; [done|].
      intros p [= <-]. split; [apply fresh_not_null|]. split; [set_solver|done].
    + rewrite getInstance_unset_fail in E by done. by injection E as <- <-.
  - rewrite getInstance_set in E by done. injection E as <- <-.
    split; [done|]. split; [done|]. intros p [= <-].
    destruct Hok; done.
Qed.

(** One call never overwrites a set slot. *)
Lemma getInstance_write_once v ok w r w' :
  m_mutex w = false →
  getInstance v ok w = (r, w') →
  (slot v w' ≠ slot v w → slot v w = nullptr)
  ∧ (slot v w ≠ nullptr → r = Ok (slot v w) ∧ w' = w).
Proof.
  intros Hm E. destruct (decide (slot v w = nullptr)) as [Hs|Hs]; [done|].
  rewrite getInstance_set in E by done. by injection E as <- <-.
Qed.

(** ** Many threads *)

Section RunFacts.
Import Machine.
Context (P : program).

Lemma step_inv t i s e s' :
  step P t i s = Some (e, s') →
  ∃ l r pc' r',
    threads s !! t = Some (Thread (At l) r)
    ∧ code P l t i r (sh s) = Some (e, pc', r', sh s')
    ∧ threads s' = <[t := Thread pc' r']> (threads s).
Proof.
  unfold step. destruct (threads s !! t) as [[[l|p] r]|] eqn:Et; simpl; try done.
  destruct (code P l t i r (sh s)) as [[[[e0 pc'] r'] σ']|] eqn:Ec; try done.
  intros [= <- <-]. by exists l, r, pc', r'.
Qed.

Lemma exec_app sched1 sched2 s :
  exec P (sched1 ++ sched2) s
  = match exec P sched1 s with
    | Some (tr1, s1) =>
        match exec P sched2 s1 with
        | Some (tr2, s2) => Some (tr1 ++ tr2, s2)
        | None => None
        end
    | None => None
    end.
Proof.
  revert s. induction sched1 as [|[t i] sched1 IH]; intros s; simpl.
  - by destruct (exec P sched2 s) as [[??]|].
  - destruct (step P t i s) as [[e s1]|]; [|done]. rewrite IH.
    destruct (exec P sched1 s1) as [[tr1 s1']|]; [|done].
    by destruct (exec P sched2 s1') as [[??]|].
Qed.

(** Induction over the states an execution passes through. *)
Lemma run_ind (Q : list (tid * event) → state (label P) → Prop) n :
  Q [] (init P n) →
  (∀ tr s t i e s', Q tr s → step P t i s = Some (e, s') → Q (tr ++ [(t, e)]) s') →
  ∀ sched tr s, run P n sched = Some (tr, s) → Q tr s.
Proof.
  intros H0 HS sched. unfold run.
  induction sched as [|[t i] sched IH] using rev_ind; intros tr s.
  - by intros [= <- <-].
  - rewrite exec_app. destruct (exec P sched (init P n)) as [[tr1 s1]|]; [|done].
    simpl. destruct (step P t i s1) as [[e s2]|] eqn:Es; [|done].
    intros [= <- <-]. eapply HS; [|done]. by apply IH.
Qed.

Lemma run_length n sched tr s :
  run P n sched = Some (tr, s) → length (threads s) = n.
Proof.
  revert sched tr s. apply (run_ind (λ _ s, length (threads s) = n)).
  - simpl. apply length_replicate.
  - intros tr s t i e s' IH (l & r & pc' & r' & _ & _ & ->)%step_inv.
    by rewrite length_insert.
Qed.

(** An invariant made of a fact about the statics and a fact about every
    thread: it holds along every execution when the step of a thread
    re-establishes both for that thread and keeps the facts of the
    others. *)
Context (G : shared → Prop) (T : shared → tid → thread (label P) → Prop).

Hypothesis G_init : G shared0.
Hypothesis T_init : ∀ t, T shared0 t (Thread (At (entry P)) regs0).
Hypothesis own : ∀ σ t l r i e pc' r' σ',
  G σ → T σ t (Thread (At l) r) →
  code P l t i r σ = Some (e, pc', r', σ') →
  G σ' ∧ T σ' t (Thread pc' r').
Hypothesis others : ∀ σ t l r i e pc' r' σ' t' th',
  t' ≠ t → G σ → T σ t (Thread (At l) r) → T σ t' th' →
  code P l t i r σ = Some (e, pc', r', σ') →
  T σ' t' th'.

Lemma inv_run n sched tr s :
  run P n sched = Some (tr, s) →
  G (sh s) ∧ ∀ t th, threads s !! t = Some th → T (sh s) t th.
Proof using G_init T_init own others.
  revert sched tr s.
  apply (run_ind (λ _ s, G (sh s) ∧ ∀ t th, threads s !! t = Some th → T (sh s) t th)).
  - split; [done|]. intros t th [-> _]%lookup_replicate. apply T_init.
  - intros tr s t i e s' [HG HT] (l & r & pc' & r' & Et & Ec & Eth)%step_inv.
    destruct (own _ _ _ _ _ _ _ _ _ HG (HT _ _ Et) Ec) as [HG' HT'].
    split; [done|]. intros t' th'. rewrite Eth.
    destruct (decide (t = t')) as [<-|Hne].
    + rewrite list_lookup_insert_eq by (by eapply lookup_lt_Some).
      by intros [= <-].
    + rewrite list_lookup_insert_ne by done. intros Et'.
      apply (others (sh s) t l r i e pc' r' (sh s') t' th'); auto.
Qed.

End RunFacts.

(** Proof steps shared by the invariants: run the line of the stepping
    thread, open the statics, split the (short) lists, decide. *)
Ltac run_code H :=
  cbn in H;
  unfold Machine.next, Machine.load, Machine.store, Machine.fence, Machine.lock,
    Machine.unlock, Machine.new_Singleton, Machine.construct,
    Machine.guard_release, Machine.local, Machine.static_guard in H;
  repeat case_match; simplify_eq.

Ltac open_shared σ :=
  let h := fresh "h" in let c := fresh "c" in
  destruct σ as [h ? ? ? ? c];
  destruct h as [|? [|? [|? ?]]]; destruct c as [|? [|? ?]].

Ltac open_regs r := destruct r as [? [? ?] [? ?] [? ?]].

Ltac open_all :=
  unfold Inv.slot_inv, Inv.views_ok, Inv.holds, Inv.latest, Inv.published,
    Inv.sees, Inv.released,
    Machine.if_null, Machine.goto, Machine.return_tmp, is_null in *;
  simpl in *.

Ltac prep :=
  repeat match goal with
    | H : _ ∧ _ |- _ => destruct H
    | H : ∃ _, _ |- _ => destruct H
    | H : (_ <=? _) = true |- _ => apply Nat.leb_le in H
    | H : ?x = ?x → _ |- _ => specialize (H eq_refl)
    | H : Some _ = None → _ |- _ => clear H
    | H : ∀ m, None = Some m → _ |- _ => clear H
    | H : ∀ m, Some ?a = Some m → _ |- _ => specialize (H a eq_refl)
    | H : _ ∈ [] |- _ => by apply elem_of_nil in H
    | H : _ ∈ [_] |- _ => apply list_elem_of_singleton in H
    | H : ∀ p, p ∈ [] → _ |- _ => clear H
    | H : ∀ p, p ∈ [?q] → _ |- _ => specialize (H q ltac:(constructor))
    | H : (?l !! ?i = Some _) |- _ =>
        is_var i; destruct i as [|[|[|?]]]; simpl in H
    | _ => progress simplify_eq/=
    end.

Ltac finish :=
  prep; repeat (case_match; prep); try done;
  repeat split; intros; prep; try done; try lia; try congruence;
  try (eexists; split; [reflexivity|done || congruence]);
  set_unfold; naive_solver (eauto with lia).

Section LockedFacts.
Import Machine Inv.

Lemma locked_own σ t l r i e pc' r' σ' :
  slot_inv (λ _, True) σ → locked_inv σ t (Thread (At l) r) →
  code Locked.prog l t i r σ = Some (e, pc', r', σ') →
  slot_inv (λ _, True) σ' ∧ locked_inv σ' t (Thread pc' r').
Proof.
  intros HG HT Hc. open_shared σ; destruct l; run_code Hc.
  all: unfold locked_inv in *; open_all.
  all: finish.
Qed.

Lemma locked_others σ t l r i e pc' r' σ' t' th' :
  t' ≠ t →
  slot_inv (λ _, True) σ → locked_inv σ t (Thread (At l) r) →
  locked_inv σ t' th' →
  code Locked.prog l t i r σ = Some (e, pc', r', σ') →
  locked_inv σ' t' th'.
Proof.
  intros Hne HG HT HT' Hc. destruct th' as [[l'|p'] r0].
  all: open_shared σ; destruct l; run_code Hc; try destruct l'.
  all: unfold locked_inv in *; open_all.
  all: finish.
Qed.

Lemma locked_invariant n sched tr s :
  run Locked.prog n sched = Some (tr, s) →
  slot_inv (λ _, True) (sh s)
  ∧ ∀ t th, threads s !! t = Some th → locked_inv (sh s) t th.
Proof.
  apply (inv_run Locked.prog (slot_inv (λ _, True)) locked_inv).
  - unfold slot_inv. simpl. naive_solver.
  - intros t. split; [unfold views_ok; simpl; lia|done].
  - apply locked_own.
  - apply locked_others.
Qed.

End LockedFacts.

Section FencedFacts.
Import Machine Inv.

Lemma fenced_own σ t l r i e pc' r' σ' :
  slot_inv released σ → fenced_inv σ t (Thread (At l) r) →
  code Fenced.prog l t i r σ = Some (e, pc', r', σ') →
  slot_inv released σ' ∧ fenced_inv σ' t (Thread pc' r').
Proof.
  intros HG HT Hc. open_regs r; open_shared σ; destruct l; run_code Hc.
  all: unfold fenced_inv in *; open_all.
  all: finish.
Qed.

Lemma fenced_others σ t l r i e pc' r' σ' t' th' :
  t' ≠ t →
  slot_inv released σ → fenced_inv σ t (Thread (At l) r) →
  fenced_inv σ t' th' →
  code Fenced.prog l t i r σ = Some (e, pc', r', σ') →
  fenced_inv σ' t' th'.
Proof.
  intros Hne HG HT HT' Hc. destruct th' as [[l'|p'] r0].
  all: open_regs r; open_shared σ; destruct l; run_code Hc; try destruct l'.
  all: unfold fenced_inv in *; open_all.
  all: finish.
Qed.

Lemma fenced_invariant n sched tr s :
  run Fenced.prog n sched = Some (tr, s) →
  slot_inv released (sh s)
  ∧ ∀ t th, threads s !! t = Some th → fenced_inv (sh s) t th.
Proof.
  apply (inv_run Fenced.prog (slot_inv released) fenced_inv).
  - unfold slot_inv. simpl. naive_solver.
  - intros t. split; [unfold views_ok; simpl; lia|done].
  - apply fenced_own.
  - apply fenced_others.
Qed.

End FencedFacts.

Section DCLPFacts.
Import Machine Inv.

Lemma dclp_own σ t l r i e pc' r' σ' :
  slot_inv (λ _, True) σ → dclp_inv σ t (Thread (At l) r) →
  code DCLP.prog l t i r σ = Some (e, pc', r', σ') →
  slot_inv (λ _, True) σ' ∧ dclp_inv σ' t (Thread pc' r').
Proof.
  intros HG HT Hc. open_regs r; open_shared σ; destruct l; run_code Hc.
  all: unfold dclp_inv in *; open_all.
  all: finish.
Qed.

Lemma dclp_others σ t l r i e pc' r' σ' t' th' :
  t' ≠ t →
  slot_inv (λ _, True) σ → dclp_inv σ t (Thread (At l) r) →
  dclp_inv σ t' th' →
  code DCLP.prog l t i r σ = Some (e, pc', r', σ') →
  dclp_inv σ' t' th'.
Proof.
  intros Hne HG HT HT' Hc. destruct th' as [[l'|p'] r0].
  all: open_regs r; open_shared σ; destruct l; run_code Hc; try destruct l'.
  all: unfold dclp_inv in *; open_all.
  all: finish.
Qed.

Lemma dclp_invariant n sched tr s :
  run DCLP.prog n sched = Some (tr, s) →
  slot_inv (λ _, True) (sh s)
  ∧ ∀ t th, threads s !! t = Some th → dclp_inv (sh s) t th.
Proof.
  apply (inv_run DCLP.prog (slot_inv (λ _, True)) dclp_inv).
  - unfold slot_inv. simpl. naive_solver.
  - intros t. split; [unfold views_ok; simpl; lia|done].
  - apply dclp_own.
  - apply dclp_others.
Qed.

End DCLPFacts.

Section MeyersFacts.
Import Machine Inv.

Lemma meyers_own σ t l r i e pc' r' σ' :
  guard_inv σ → meyers_inv σ t (Thread (At l) r) →
  code Meyers.prog l t i r σ = Some (e, pc', r', σ') →
  guard_inv σ' ∧ meyers_inv σ' t (Thread pc' r').
Proof.
  intros HG HT Hc. destruct σ; destruct l; run_code Hc.
  all: unfold guard_inv, meyers_inv in *; open_all.
  all: finish.
Qed.

Lemma meyers_others σ t l r i e pc' r' σ' t' th' :
  t' ≠ t →
  guard_inv σ → meyers_inv σ t (Thread (At l) r) →
  meyers_inv σ t' th' →
  code Meyers.prog l t i r σ = Some (e, pc', r', σ') →
  meyers_inv σ' t' th'.
Proof.
  intros Hne HG HT HT' Hc. destruct th' as [[l'|p'] r0].
  all: destruct σ; destruct l; run_code Hc; try destruct l'.
  all: unfold guard_inv, meyers_inv in *; open_all.
  all: finish.
Qed.

Lemma meyers_invariant n sched tr s :
  run Meyers.prog n sched = Some (tr, s) →
  guard_inv (sh s)
  ∧ ∀ t th, threads s !! t = Some th → meyers_inv (sh s) t th.
Proof.
  apply (inv_run Meyers.prog guard_inv meyers_inv).
  - done.
  - done.
  - apply meyers_own.
  - apply meyers_others.
Qed.

End MeyersFacts.


(** ** What the calls return *)

Section Results.
Import Machine Inv.

Lemma result_Some P (s : state (label P)) t p :
  result P s t = Some p ↔ ∃ r, threads s !! t = Some (Thread (Returned p) r).
Proof.
  unfold result. destruct (threads s !! t) as [[[l|q] r]|]; simpl.
  - split; [done|]. by intros [? [=]].
  - split; [intros [= ->]; by exists r|]. by intros [? [= -> ->]].
  - split; [done|]. by intros [? [=]].
Qed.

(** With a mutex: every pointer returned is the one object constructed. *)
Lemma locked_results n sched tr s :
  run Locked.prog n sched = Some (tr, s) →
  length (ctors (sh s)) ≤ 1
  ∧ ∀ t p, result Locked.prog s t = Some p → p ≠ nullptr ∧ ctors (sh s) = [p].
Proof.
  intros [HG HT]%locked_invariant. split; [apply HG|].
  intros t p [r Ht]%result_Some. destruct (HT _ _ Ht) as [_ [[m [Hm <-]] _]].
  destruct HG as (_ & _ & G2 & _). by destruct (G2 _ Hm) as (? & ? & _).
Qed.

Lemma fenced_results n sched tr s :
  run Fenced.prog n sched = Some (tr, s) →
  length (ctors (sh s)) ≤ 1
  ∧ ∀ t p, result Fenced.prog s t = Some p → p ≠ nullptr ∧ ctors (sh s) = [p].
Proof.
  intros [HG HT]%fenced_invariant. split; [apply HG|].
  intros t p [r Ht]%result_Some. destruct (HT _ _ Ht) as [_ [[m [Hm <-]] _]].
  destruct HG as (_ & _ & G2 & _). by destruct (G2 _ Hm) as (? & ? & _).
Qed.

Lemma dclp_results n sched tr s :
  run DCLP.prog n sched = Some (tr, s) →
  length (ctors (sh s)) ≤ 1
  ∧ ∀ t p, result DCLP.prog s t = Some p → p ≠ nullptr ∧ ctors (sh s) = [p].
Proof.
  intros [HG HT]%dclp_invariant. split; [apply HG|].
  intros t p [r Ht]%result_Some. destruct (HT _ _ Ht) as [_ [m [Hm <-]]].
  destruct HG as (_ & _ & G2 & _). by destruct (G2 _ Hm) as (? & ? & _).
Qed.

Lemma meyers_results n sched tr s :
  run Meyers.prog n sched = Some (tr, s) →
  length (ctors (sh s)) ≤ 1
  ∧ ∀ t p, result Meyers.prog s t = Some p → p ≠ nullptr ∧ ctors (sh s) = [p].
Proof.
  intros [HG HT]%meyers_invariant. unfold guard_inv in HG. split.
  - destruct (guard (sh s)); [rewrite HG; simpl; lia|done|].
    destruct HG as [-> _]. simpl; lia.
  - intros t p [r Ht]%result_Some. destruct (HT _ _ Ht) as (-> & Hg & _).
    rewrite Hg in HG. by destruct HG as [-> _].
Qed.

(** From "every result is the one constructed object" to the statement
    about all [n] threads. *)
Lemma one_identity P n sched tr (s : state (label P)) :
  0 < n →
  run P n sched = Some (tr, s) →
  (∀ t p, result P s t = Some p → p ≠ nullptr ∧ ctors (sh s) = [p]) →
  all_returned P s →
  ∃ p, p ≠ nullptr ∧ ctors (sh s) = [p] ∧ ∀ t, t < n → result P s t = Some p.
Proof.
  intros Hn Hrun Hres Hall. pose proof (run_length _ _ _ _ _ Hrun) as Hlen.
  assert (∀ t, t < n → ∃ p, result P s t = Some p) as Hret.
  { intros t Ht. destruct (lookup_lt_is_Some_2 (threads s) t) as [th Hth]; [lia|].
    destruct (Hall _ _ Hth) as [p Hp]. exists p. apply result_Some.
    destruct th as [pc0 r]. simpl in Hp. subst. by exists r. }
  destruct (Hret 0 Hn) as [p Hp]. destruct (Hres _ _ Hp) as [Hnn Hc].
  exists p. split; [done|]. split; [done|]. intros t Ht.
  destruct (Hret t Ht) as [q Hq]. destruct (Hres _ _ Hq) as [_ Hc'].
  rewrite Hc in Hc'. by injection Hc' as ->.
Qed.

End Results.

(** ** Events of one thread *)

Section Traces.
Import Machine.
Context (P : program).

Lemma proj_snoc t tr t' e :
  proj t (tr ++ [(t', e)])
  = if decide (t' = t) then proj t tr ++ [e] else proj t tr.
Proof.
  unfold proj. rewrite filter_app, fmap_app.
  rewrite filter_cons, filter_nil. simpl.
  destruct (decide (t' = t)); simpl; [done|]. by rewrite app_nil_r.
Qed.

(** A fact relating the events of a thread to where it is holds along
    every execution when each line of the code keeps it. *)
Context (Tt : list event → thread (label P) → Prop).
Hypothesis Tt_init : Tt [] (Thread (At (entry P)) regs0).
Hypothesis Tt_step : ∀ evs t l r i σ e pc' r' σ',
  Tt evs (Thread (At l) r) →
  code P l t i r σ = Some (e, pc', r', σ') →
  Tt (evs ++ [e]) (Thread pc' r').

Lemma trace_run n sched tr s :
  run P n sched = Some (tr, s) →
  ∀ t th, threads s !! t = Some th → Tt (proj t tr) th.
Proof using Tt_init Tt_step.
  revert sched tr s.
  apply (run_ind P (λ tr s, ∀ t th, threads s !! t = Some th → Tt (proj t tr) th)).
  - intros t th [-> _]%lookup_replicate. apply Tt_init.
  - intros tr s t i e s' IH (l & r & pc' & r' & Et & Ec & Eth)%step_inv t' th'.
    rewrite Eth, proj_snoc. destruct (decide (t = t')) as [<-|Hne].
    + rewrite list_lookup_insert_eq by (by eapply lookup_lt_Some).
      intros [= <-]. eapply Tt_step; [|done]. by apply IH.
    + rewrite list_lookup_insert_ne by done. apply IH.
Qed.

End Traces.

Ltac open_paths :=
  unfold dclp_trace, dclp_path, dclp_fast, dclp_recheck, dclp_construct,
    fenced_trace, fenced_path, fenced_fast, fenced_recheck, fenced_construct,
    Machine.if_null, Machine.goto, Machine.return_tmp, is_null in *;
  simpl in *.

Lemma dclp_trace_run n sched tr s :
  Machine.run DCLP.prog n sched = Some (tr, s) →
  ∀ t th, Machine.threads s !! t = Some th → dclp_trace (Machine.proj t tr) th.
Proof.
  apply (trace_run DCLP.prog dclp_trace); [done|].
  intros evs t l r i σ e pc' r' σ' HT Hc.
  destruct l; run_code Hc; open_paths; repeat case_match; simplify_eq/=;
    try done; try (destruct HT as [->|[? ->]]); try (destruct HT as [q HT]);
    try (eexists; left; split; [|reflexivity]; done);
    try (eexists; split; [eexists; eassumption|reflexivity]);
    naive_solver.
Qed.

Lemma fenced_trace_run n sched tr s :
  Machine.run Fenced.prog n sched = Some (tr, s) →
  ∀ t th, Machine.threads s !! t = Some th → fenced_trace (Machine.proj t tr) th.
Proof.
  apply (trace_run Fenced.prog fenced_trace); [done|].
  intros evs t l r i σ e pc' r' σ' HT Hc.
  destruct l; run_code Hc; open_paths; repeat case_match; simplify_eq/=;
    try done; try (destruct HT as [->|[? ->]]);
    try (eexists; split; [eassumption|reflexivity]);
    naive_solver.
Qed.

Section LazyFacts.
Import Machine Inv.

Lemma load_Some m t i r σ e r' σ' :
  load m t i r σ = Some (e, r', σ') →
  ∃ w, v_slot (cur r) ≤ i ∧ hist σ !! i = Some w
       ∧ e = EvLoad (val w) ∧ tmp r' = val w ∧ v_slot (cur r') = i ∧ σ' = σ.
Proof.
  unfold load. destruct (v_slot (cur r) <=? i) eqn:Hle; [|done].
  destruct (hist σ !! i) as [w|] eqn:Hw; [|done]. intros [= <- <- <-].
  exists w. by apply Nat.leb_le in Hle.
Qed.

Lemma next_Some {L} a (k : ptr → pcs L) t i r σ e pc' r' σ' :
  next a k t i r σ = Some (e, pc', r', σ') →
  a t i r σ = Some (e, r', σ') ∧ pc' = k (tmp r').
Proof.
  unfold next. destruct (a t i r σ) as [[[e0 r0] σ0]|]; [|done].
  by intros [= <- <- <- <-].
Qed.

Lemma lazy_own σ t l r i e pc' r' σ' :
  lazy_slot_inv σ → lazy_inv σ t (Thread (At l) r) →
  code Lazy.prog l t i r σ = Some (e, pc', r', σ') →
  lazy_slot_inv σ' ∧ lazy_inv σ' t (Thread pc' r').
Proof.
  intros [G0 G1] [Hv HT] Hc. unfold lazy_slot_inv, lazy_inv.
  destruct l; apply next_Some in Hc as [Hc ->]; simpl in *.
  - (* line 17 *)
    apply load_Some in Hc as (w & Hle & Hw & -> & -> & -> & ->).
    split; [done|]. split; [by eapply lookup_lt_Some|].
    unfold if_null. destruct i as [|i].
    + rewrite G0 in Hw. by simplify_eq/=.
    + destruct (G1 _ _ Hw) as [Hn _]. destruct (val w); simpl; [done|lia..].
  - (* line 18, new *)
    injection Hc as <- <- <-. simpl. split; [split; [done|]|].
    + intros j w Hw. destruct (G1 _ _ Hw). split; [done|]. set_solver.
    + split; [done|]. split; [done|]. set_solver.
  - (* line 18, assignment *)
    injection Hc as <- <- <-. simpl. split; [split|].
    + by apply lookup_app_l_Some.
    + intros j w [Hw|[_ Hw]]%lookup_app_Some; [by eapply G1|].
      destruct (S j - length (hist σ)) as [|?]; simplify_eq/=. done.
    + rewrite length_app. simpl. split; [lia|]. lia.
  - (* line 20 *)
    apply load_Some in Hc as (w & Hle & Hw & -> & -> & -> & ->).
    split; [done|]. split; [by eapply lookup_lt_Some|].
    unfold return_tmp. destruct i as [|i]; [lia|]. by eapply G1.
Qed.

Lemma lazy_others σ t l r i e pc' r' σ' t' th' :
  t' ≠ t →
  lazy_slot_inv σ → lazy_inv σ t (Thread (At l) r) →
  lazy_inv σ t' th' →
  code Lazy.prog l t i r σ = Some (e, pc', r', σ') →
  lazy_inv σ' t' th'.
Proof.
  intros _ _ _ [Hv HT'] Hc. unfold lazy_inv.
  destruct l; apply next_Some in Hc as [Hc _]; simpl in *.
  - by apply load_Some in Hc as (w & Hle & Hw & -> & _ & _ & ->).
  - injection Hc as <- <- <-. simpl.
    split; [done|]. destruct (pc th') as [[]|]; set_solver.
  - injection Hc as <- <- <-. simpl.
    rewrite length_app. simpl. split; [lia|done].
  - by apply load_Some in Hc as (w & Hle & Hw & -> & _ & _ & ->).
Qed.

Lemma lazy_invariant n sched tr s :
  run Lazy.prog n sched = Some (tr, s) →
  lazy_slot_inv (sh s)
  ∧ ∀ t th, threads s !! t = Some th → lazy_inv (sh s) t th.
Proof.
  apply (inv_run Lazy.prog lazy_slot_inv lazy_inv).
  - split; [done|]. by intros [|?] ?.
  - intros t. split; [simpl; lia|done].
  - apply lazy_own.
  - apply lazy_others.
Qed.

End LazyFacts.

(** ** The slot is written once *)

Section WriteOnce.
Import Machine Inv.

Lemma locked_write_once : write_once V2.
Proof.
  intros n sched tr s Hrun.
  destruct (locked_invariant _ _ _ _ Hrun) as [HG HT]. split.
  - intros t i e s' (l & r & pc' & r' & Et & Ec & _)%step_inv.
    specialize (HT _ _ Et). destruct s as [ths σ], s' as [ths' σ'].
    unfold slot_now. simpl in *. clear Hrun Et.
    open_regs r; open_shared σ; destruct l; run_code Ec.
    all: unfold locked_inv in *; open_all.
    all: finish.
  - intros t p [r Ht]%result_Some. destruct (HT _ _ Ht) as [_ HR].
    destruct s as [ths σ]. unfold slot_now. simpl in *. clear Hrun Ht HT.
    open_shared σ; open_all; finish.
Qed.

Lemma dclp_write_once : write_once V3.
Proof.
  intros n sched tr s Hrun.
  destruct (dclp_invariant _ _ _ _ Hrun) as [HG HT]. split.
  - intros t i e s' (l & r & pc' & r' & Et & Ec & _)%step_inv.
    specialize (HT _ _ Et). destruct s as [ths σ], s' as [ths' σ'].
    unfold slot_now. simpl in *. clear Hrun Et.
    open_regs r; open_shared σ; destruct l; run_code Ec.
    all: unfold dclp_inv in *; open_all.
    all: finish.
  - intros t p [r Ht]%result_Some. destruct (HT _ _ Ht) as [_ HR].
    destruct s as [ths σ]. unfold slot_now. simpl in *. clear Hrun Ht HT.
    open_shared σ; open_all; finish.
Qed.

Lemma fenced_write_once : write_once V4.
Proof.
  intros n sched tr s Hrun.
  destruct (fenced_invariant _ _ _ _ Hrun) as [HG HT]. split.
  - intros t i e s' (l & r & pc' & r' & Et & Ec & _)%step_inv.
    specialize (HT _ _ Et). destruct s as [ths σ], s' as [ths' σ'].
    unfold slot_now. simpl in *. clear Hrun Et.
    open_regs r; open_shared σ; destruct l; run_code Ec.
    all: unfold fenced_inv in *; open_all.
    all: finish.
  - intros t p [r Ht]%result_Some. destruct (HT _ _ Ht) as [_ HR].
    destruct s as [ths σ]. unfold slot_now. simpl in *. clear Hrun Ht HT.
    open_shared σ; open_all; finish.
Qed.

Lemma meyers_write_once : write_once V5.
Proof.
  intros n sched tr s Hrun.
  destruct (meyers_invariant _ _ _ _ Hrun) as [HG HT]. split.
  - intros t i e s' (l & r & pc' & r' & Et & Ec & _)%step_inv.
    specialize (HT _ _ Et). destruct s as [ths σ], s' as [ths' σ'].
    unfold slot_now. simpl in *. clear Hrun Et.
    destruct σ; destruct l; run_code Ec.
    all: unfold guard_inv, meyers_inv in *; open_all.
    all: finish.
  - intros t p [r Ht]%result_Some. destruct (HT _ _ Ht) as (-> & Hg & _).
    destruct s as [ths σ]. simpl in *. unfold slot_now. by rewrite Hg.
Qed.

End WriteOnce.

(** ** Ordering, shape of the slow path, write-once *)

(** C2. Ordering contract of example 4: every non-null pointer in
    [m_instance] was stored with the view of a release fence that followed
    its construction; a thread past its acquire fence that holds a non-null
    pointer sees the constructor writes of that pointer; every pointer
    returned is non-null, constructed, and seen as constructed by the thread
    that returns it; and the events of a returning thread are, in this
    order, those of one of the three paths (construction, release fence,
    relaxed store on the publishing side; relaxed load, acquire fence on
    the observing side). *)
Theorem fenced_release_acquire n sched tr s :
  Machine.run Fenced.prog n sched = Some (tr, s) →
  (∀ m, m ∈ Machine.hist (Machine.sh s) → Machine.val m ≠ nullptr →
     Machine.val m ∈ Machine.v_objs (Machine.mview m))
  ∧ (∀ t r, Machine.threads s !! t = Some (Machine.Thread (Machine.At Fenced.L100) r) →
       Machine.tmp r ≠ nullptr →
       Machine.tmp r ∈ Machine.v_objs (Machine.cur r))
  ∧ (∀ t p r, Machine.threads s !! t = Some (Machine.Thread (Machine.Returned p) r) →
       p ≠ nullptr ∧ p ∈ Machine.ctors (Machine.sh s)
       ∧ p ∈ Machine.v_objs (Machine.cur r)
       ∧ ∃ evs, fenced_path p evs
                ∧ Machine.proj t tr = evs ++ [Machine.EvLocal]).
Proof.
  intros Hrun. destruct (fenced_invariant _ _ _ _ Hrun) as [HG HT].
  pose proof (fenced_trace_run _ _ _ _ Hrun) as HTr.
  destruct HG as (G0 & G1 & G2 & _). split; [|split].
  - intros m [i Hm]%list_elem_of_lookup Hnn.
    destruct i as [|[|i]].
    + rewrite G0 in Hm. by simplify_eq/=.
    + by destruct (G2 _ Hm) as (_ & _ & _ & ?).
    + apply lookup_lt_Some in Hm. lia.
  - intros t r Ht Hnn. destruct (HT _ _ Ht) as [_ HR]. simpl in HR.
    by destruct (HR Hnn).
  - intros t p r Ht. destruct (HT _ _ Ht) as [_ [[m [Hm <-]] Hs]].
    destruct (G2 _ Hm) as (Hnn & Hc & _). split; [done|].
    split; [rewrite Hc; set_solver|]. split; [done|]. apply (HTr _ _ Ht).
Qed.

Lemma fenced_release_acquire_witness :
  ∃ tr s,
    Machine.run Fenced.prog 32 window32 = Some (tr, s)
    ∧ (∀ m, m ∈ Machine.hist (Machine.sh s) → Machine.val m ≠ nullptr →
         Machine.val m ∈ Machine.v_objs (Machine.mview m))
    ∧ (∀ t r, Machine.threads s !! t = Some (Machine.Thread (Machine.At Fenced.L100) r) →
         Machine.tmp r ≠ nullptr →
         Machine.tmp r ∈ Machine.v_objs (Machine.cur r))
    ∧ (∀ t p r, Machine.threads s !! t = Some (Machine.Thread (Machine.Returned p) r) →
         p ≠ nullptr ∧ p ∈ Machine.ctors (Machine.sh s)
         ∧ p ∈ Machine.v_objs (Machine.cur r)
         ∧ ∃ evs, fenced_path p evs
                  ∧ Machine.proj t tr = evs ++ [Machine.EvLocal]).
Proof.
  destruct (Machine.run Fenced.prog 32 window32) as [[tr s]|] eqn:E;
    [|by vm_compute in E].
  exists tr, s. split; [done|].
  apply (fenced_release_acquire 32 window32 tr s). exact E.
Defined.

(** Without the fences the same pattern lets a thread return a pointer
    whose constructor writes it does not see: example 3, thread 1 making
    its first check after thread 0 has stored. *)
Example dclp_visibility_hazard :
  ∃ tr s p r,
    Machine.run DCLP.prog 2 (replicate 6 (0, 0) ++ [(0, 1); (1, 1); (1, 1)])
    = Some (tr, s)
    ∧ Machine.threads s !! 1 = Some (Machine.Thread (Machine.Returned p) r)
    ∧ p ≠ nullptr
    ∧ p ∉ Machine.v_objs (Machine.cur r).
Proof.
  eexists _, _, _, _. split; [vm_compute; reflexivity|].
  split; [reflexivity|]. split; [done|]. simpl. set_solver.
Qed.

(** C7. Shape of example 3: at every moment the events of a thread are
    those of the line it is at; in particular the events of a call that has
    returned are one of: first check found the slot set, then the read for
    [return] (no lock, no construction); first check found it unset, lock,
    second check found it set, unlock, read; first check unset, lock, second
    check unset, construction, store, unlock, read. *)
Theorem dclp_slow_path_only n sched tr s :
  Machine.run DCLP.prog n sched = Some (tr, s) →
  (∀ t th, Machine.threads s !! t = Some th → dclp_trace (Machine.proj t tr) th)
  ∧ ∀ t p, Machine.result DCLP.prog s t = Some p →
      ∃ q,
        (q ≠ nullptr
         ∧ Machine.proj t tr = [Machine.EvLoad q; Machine.EvLoad p])
        ∨ (q ≠ nullptr
           ∧ Machine.proj t tr
             = [Machine.EvLoad nullptr; Machine.EvLock; Machine.EvLoad q;
                Machine.EvUnlock; Machine.EvLoad p])
        ∨ Machine.proj t tr
          = [Machine.EvLoad nullptr; Machine.EvLock; Machine.EvLoad nullptr;
             Machine.EvNew q; Machine.EvStore q; Machine.EvUnlock;
             Machine.EvLoad p].
Proof.
  intros Hrun. pose proof (dclp_trace_run _ _ _ _ Hrun) as HTr.
  split; [done|]. intros t p [r Ht]%result_Some.
  destruct (HTr _ _ Ht) as (evs & [q Hq] & ->). exists q.
  destruct Hq as [[? ->]|[[? ->]| ->]]; auto.
Qed.

Lemma dclp_slow_path_only_witness :
  ∃ tr s,
    Machine.run DCLP.prog 3 dclp_three = Some (tr, s)
    ∧ Machine.proj 0 tr
      = [Machine.EvLoad nullptr; Machine.EvLock; Machine.EvLoad nullptr;
         Machine.EvNew (heap_obj 0); Machine.EvStore (heap_obj 0);
         Machine.EvUnlock; Machine.EvLoad (heap_obj 0)]
    ∧ Machine.proj 1 tr
      = [Machine.EvLoad nullptr; Machine.EvLock; Machine.EvLoad (heap_obj 0);
         Machine.EvUnlock; Machine.EvLoad (heap_obj 0)]
    ∧ Machine.proj 2 tr
      = [Machine.EvLoad (heap_obj 0); Machine.EvLoad (heap_obj 0)]
    ∧ (∀ t th, Machine.threads s !! t = Some th → dclp_trace (Machine.proj t tr) th)
    ∧ ∀ t p, Machine.result DCLP.prog s t = Some p →
        ∃ q,
          (q ≠ nullptr
           ∧ Machine.proj t tr = [Machine.EvLoad q; Machine.EvLoad p])
          ∨ (q ≠ nullptr
             ∧ Machine.proj t tr
               = [Machine.EvLoad nullptr; Machine.EvLock; Machine.EvLoad q;
                  Machine.EvUnlock; Machine.EvLoad p])
          ∨ Machine.proj t tr
            = [Machine.EvLoad nullptr; Machine.EvLock; Machine.EvLoad nullptr;
               Machine.EvNew q; Machine.EvStore q; Machine.EvUnlock;
               Machine.EvLoad p].
Proof.
  destruct (Machine.run DCLP.prog 3 dclp_three) as [[tr s]|] eqn:E;
    [|by vm_compute in E].
  exists tr, s. split; [done|].
  assert (Hc := dclp_slow_path_only 3 dclp_three tr s E).
  vm_compute in E. injection E as <- <-.
  split; [reflexivity|]. split; [reflexivity|]. split; [reflexivity|]. exact Hc.
Defined.

(** The race of example 1 run to the end: two objects are constructed and
    the two callers get different pointers. *)
Example lazy_race_two_instances :
  ∃ tr s,
    Machine.run Lazy.prog 2 (lazy_race ++ [(1, 0); (0, 1); (1, 2)]) = Some (tr, s)
    ∧ Machine.result Lazy.prog s 0 = Some (heap_obj 0)
    ∧ Machine.result Lazy.prog s 1 = Some (heap_obj 1)
    ∧ Machine.ctors (Machine.sh s) = [heap_obj 0; heap_obj 1].
Proof. eexists _, _. split; [vm_compute; reflexivity|]. done. Qed.

(** C9, as stated, fails: in example 1 two threads can both pass the null
    check; the second assignment then overwrites a slot that already holds
    the first object. *)
Lemma write_once_not_lazy : ¬ (∀ v, write_once v).
Proof.
  intros H.
  destruct (Machine.run (prog V1) 2 lazy_race) as [[tr s]|] eqn:E;
    [|by vm_compute in E].
  destruct (H V1 2 lazy_race tr s E) as [H1 _].
  vm_compute in E. injection E as <- <-.
  pose proof (H1 1 0 _ _ eq_refl) as H2.
  assert (heap_obj 1 = heap_obj 0) as [=]. apply H2. done.
Qed.

(** C9, amended. A call by a thread that is alone writes the slot only
    when it is null, and on a set slot returns it and changes nothing, in
    every variant; with many threads, in examples 2 to 5 no step changes a
    slot that is set and every call returns what the slot holds. *)
Theorem write_once_amended :
  (∀ v ok w r w',
     m_mutex w = false →
     getInstance v ok w = (r, w') →
     (slot v w' ≠ slot v w → slot v w = nullptr)
     ∧ (slot v w ≠ nullptr → r = Ok (slot v w) ∧ w' = w))
  ∧ (∀ v, v ≠ V1 → write_once v).
Proof.
  split; [apply getInstance_write_once|].
  intros [] Hv; [done|..].
  - apply locked_write_once.
  - apply dclp_write_once.
  - apply fenced_write_once.
  - apply meyers_write_once.
Qed.

(** C10. No null result: a call by a thread that is alone, on statics
    whose slot is unset or refers to a constructed object, returns (when
    construction succeeds) a non-null pointer to a constructed object and
    leaves the statics in such a state; and in every execution of many
    threads, in every variant, every pointer returned is non-null and
    refers to a constructed object. *)
Theorem result_not_null :
  (∀ v w,
     m_mutex w = false → slot_ok v w →
     ∃ p w', getInstance v true w = (Ok p, w')
             ∧ p ≠ nullptr ∧ p ∈ constructed w'
             ∧ slot_ok v w' ∧ m_mutex w' = false)
  ∧ (∀ v ok w p w',
       m_mutex w = false → slot_ok v w →
       getInstance v ok w = (Ok p, w') →
       p ≠ nullptr ∧ p ∈ constructed w')
  ∧ (∀ v n sched tr s t p,
       Machine.run (prog v) n sched = Some (tr, s) →
       Machine.result (prog v) s t = Some p →
       p ≠ nullptr ∧ p ∈ Machine.ctors (Machine.sh s)).
Proof.
  split; [|split].
  - intros v w Hm Hok.
    assert (∃ p w', getInstance v true w = (Ok p, w')) as (p & w' & E).
    { destruct (decide (slot v w = nullptr)).
      - rewrite getInstance_unset_ok by done. eauto.
      - rewrite getInstance_set by done. eauto. }
    exists p, w'. split; [done|].
    destruct (getInstance_result_ok _ _ _ _ _ Hm Hok E) as (? & ? & Hp).
    destruct (Hp p eq_refl) as (? & ? & _). done.
  - intros v ok w p w' Hm Hok E.
    destruct (getInstance_result_ok _ _ _ _ _ Hm Hok E) as (_ & _ & Hp).
    destruct (Hp p eq_refl) as (? & ? & _). done.
  - intros v n sched tr s t p Hrun Hres.
    assert (p ≠ nullptr ∧ Machine.ctors (Machine.sh s) = [p]
            → p ≠ nullptr ∧ p ∈ Machine.ctors (Machine.sh s)) as Hone.
    { intros [? ->]. split; [done|set_solver]. }
    destruct v; simpl in *.
    + destruct (lazy_invariant _ _ _ _ Hrun) as [_ HT].
      apply result_Some in Hres as [r Ht]. by destruct (HT _ _ Ht) as [_ ?].
    + apply Hone. by eapply locked_results.
    + apply Hone. by eapply dclp_results.
    + apply Hone. by eapply fenced_results.
    + apply Hone. by eapply meyers_results.
Qed.

(** ** Every call comes to an end *)

Section Progress.
Import Machine Inv.

Lemma sum_insert {A} (f : A → nat) (l : list A) i x y :
  l !! i = Some x →
  sum_list (f <$> <[i:=y]> l) + f x = sum_list (f <$> l) + f y.
Proof.
  revert i. induction l as [|a l IH]; intros [|i] Hi; simplify_eq/=; [lia|].
  specialize (IH _ Hi). lia.
Qed.

Lemma steps_left_decreases v l t i r σ e pc' r' σ' :
  code (prog v) l t i r σ = Some (e, pc', r', σ') →
  steps_left v pc' < steps_left v (At l).
Proof.
  intros Hc. destruct v; destruct l; run_code Hc;
    unfold if_null, goto, return_tmp; simpl;
    repeat (case_match; simplify_eq/=); lia.
Qed.

(** The steps taken so far and the steps the threads can still take never
    exceed what [n] fresh threads can take. *)
Lemma run_bounded v n sched tr s :
  run (prog v) n sched = Some (tr, s) →
  length tr + sum_list (steps_left v ∘ pc <$> threads s)
  ≤ n * steps_left v (At (entry (prog v))).
Proof.
  revert sched tr s.
  apply (run_ind (prog v) (λ tr s,
    length tr + sum_list (steps_left v ∘ pc <$> threads s)
    ≤ n * steps_left v (At (entry (prog v))))).
  - simpl. rewrite fmap_replicate, sum_list_replicate. simpl. lia.
  - intros tr s t i e s' IH (l & r & pc' & r' & Et & Ec & Eth)%step_inv.
    rewrite Eth, length_app.
    pose proof (steps_left_decreases _ _ _ _ _ _ _ _ _ _ Ec) as Hd.
    match type of IH with
    | _ + ?S ≤ ?N =>
        match goal with
        | |- _ + ?S' ≤ _ =>
            assert (S' + steps_left v (At l) = S + steps_left v pc') as Hs
              by exact (sum_insert (steps_left v ∘ pc) _ _ _ (Thread pc' r') Et);
            revert IH Hs Hd; generalize S' S N
        end
    end.
    generalize (steps_left v pc') (steps_left v (At l)). simpl. intros. lia.
Qed.

Lemma run_trace_length P n sched tr s :
  run P n sched = Some (tr, s) → length tr = length sched.
Proof.
  unfold run. generalize (init P n). revert tr s.
  induction sched as [|[t i] sched IH]; intros tr s s0; simpl.
  - by intros [= <- <-].
  - destruct (step P t i s0) as [[e s1]|]; [|done].
    destruct (exec P sched s1) as [[tr1 s2]|] eqn:E; [|done].
    intros [= <- <-]. simpl. f_equal. by eapply IH.
Qed.

Lemma owner_run v n sched tr s :
  run (prog v) n sched = Some (tr, s) → owner_inv v s.
Proof.
  revert sched tr s. apply (run_ind (prog v) (λ _ s, owner_inv v s)).
  - intros t Ho. by destruct v.
  - intros tr s t i e s' IH (l & r & pc' & r' & Et & Ec & Eth)%step_inv t0 Ho.
    pose proof (lookup_lt_Some _ _ _ Et) as Hlt.
    destruct s as [ths σ], s' as [ths' σ']. simpl in *. subst ths'.
    destruct (decide (t0 = t)) as [->|Hne].
    + exists (Thread pc' r'). split; [by apply list_lookup_insert_eq|].
      assert (owner v σ = Some t → in_cs v (At l) = true) as Hin.
      { intros Ho'. destruct (IH _ Ho') as (th & Hth & Hcs). simpl in Hth.
        rewrite Et in Hth. by injection Hth as <-. }
      clear IH Et Hlt. destruct v; destruct l; run_code Ec;
        unfold owner, if_null, goto, return_tmp in *; simpl in *;
        repeat (case_match; simplify_eq/=); try done; by apply Hin.
    + assert (owner v σ' = Some t0 → owner v σ = Some t0) as Hsame.
      { clear IH Et Hlt. destruct v; destruct l; run_code Ec;
          unfold owner in *; simpl in *;
          repeat (case_match; simplify_eq/=); try done; congruence. }
      destruct (IH _ (Hsame Ho)) as (th & Hth & Hcs). exists th.
      split; [|done]. simpl in *. by rewrite list_lookup_insert_ne.
Qed.

(** A line can be executed when nobody else holds the mutex or guard,
    reading the newest message the thread knows of. *)
Lemma enabled v l t r σ :
  v = V5 ∨ v_slot (cur r) < length (hist σ) →
  owner v σ = None ∨ in_cs v (At l) = true →
  ∃ e pc' r' σ', code (prog v) l t (v_slot (cur r)) r σ = Some (e, pc', r', σ').
Proof.
  intros Hv Ho.
  assert (v = V5 ∨ ∃ w, hist σ !! v_slot (cur r) = Some w) as Hw.
  { destruct Hv as [->|Hv]; [by left|right]. by apply lookup_lt_is_Some_2. }
  clear Hv.
  destruct v; destruct l; cbn;
    unfold next, load, store, fence, lock, unlock, new_Singleton, construct,
      guard_release, local, static_guard, owner in *; simpl in *;
    rewrite ?Nat.leb_refl;
    try (destruct Hw as [?|[w ->]]; [done|]);
    try (destruct Ho as [Ho|?]; [|done]);
    repeat (case_match; simplify_eq/=); eauto.
Qed.

Lemma views_in_hist v n sched tr s t th :
  run (prog v) n sched = Some (tr, s) →
  threads s !! t = Some th →
  v = V5 ∨ v_slot (cur (rg th)) < length (hist (sh s)).
Proof.
  intros Hrun Ht. destruct v; [| | | |by left]; right; simpl in *.
  - destruct (lazy_invariant _ _ _ _ Hrun) as [_ HT].
    by destruct (HT _ _ Ht) as [? _].
  - destruct (locked_invariant _ _ _ _ Hrun) as [_ HT].
    by destruct (HT _ _ Ht) as [[? _] _].
  - destruct (dclp_invariant _ _ _ _ Hrun) as [_ HT].
    by destruct (HT _ _ Ht) as [[? _] _].
  - destruct (fenced_invariant _ _ _ _ Hrun) as [_ HT].
    by destruct (HT _ _ Ht) as [[? _] _].
Qed.

Lemma step_Some P t i (s : state (label P)) l r e pc' r' σ' :
  threads s !! t = Some (Thread (At l) r) →
  code P l t i r (sh s) = Some (e, pc', r', σ') →
  step P t i s = Some (e, State (<[t := Thread pc' r']> (threads s)) σ').
Proof. intros Ht Hc. unfold step. rewrite Ht. simpl. by rewrite Hc. Qed.

(** No deadlock: while a thread is inside [getInstance()], some thread can
    take a step. *)
Lemma progress v n sched tr s t l r :
  run (prog v) n sched = Some (tr, s) →
  threads s !! t = Some (Thread (At l) r) →
  ∃ t' i e s', step (prog v) t' i s = Some (e, s').
Proof.
  intros Hrun Ht. pose proof (owner_run _ _ _ _ _ Hrun) as Hown.
  assert (∃ t' l' r', threads s !! t' = Some (Thread (At l') r')
            ∧ (owner v (sh s) = None ∨ in_cs v (At l') = true))
    as (t' & l' & r' & Ht' & Ho).
  { destruct (owner v (sh s)) as [t0|] eqn:Eo.
    - destruct (Hown _ Eo) as ([pc0 r0] & Ht0 & Hcs). simpl in Hcs.
      destruct pc0 as [l0|p]; [|by destruct v].
      exists t0, l0, r0. auto.
    - exists t, l, r. auto. }
  destruct (enabled v l' t' r' (sh s)) as (e & pc' & r'' & σ' & Hc); [|done|].
  { apply (views_in_hist _ _ _ _ _ _ _ Hrun Ht'). }
  exists t', (v_slot (cur r')). eexists _, _. by eapply step_Some.
Qed.

End Progress.

(** C1. Single instance: in every execution of [n] threads each calling
    the [getInstance()] of example 2, 4 or 5, at most one object is ever
    constructed and every pointer returned is that object; once all threads
    have returned, exactly one object was constructed and all [n] results
    are that same non-null pointer.  And the calls do return: while a
    thread is inside [getInstance()] some thread can take a step, and no
    execution has more than [11 * n] steps. *)
Theorem single_instance (v : variant) (n : nat) sched tr s :
  correct v = true →
  0 < n →
  Machine.run (prog v) n sched = Some (tr, s) →
  length (Machine.ctors (Machine.sh s)) ≤ 1
  ∧ (∀ t p, Machine.result (prog v) s t = Some p →
       p ≠ nullptr ∧ Machine.ctors (Machine.sh s) = [p])
  ∧ (Machine.all_returned (prog v) s →
       ∃ p, p ≠ nullptr ∧ Machine.ctors (Machine.sh s) = [p]
            ∧ ∀ t, t < n → Machine.result (prog v) s t = Some p)
  ∧ (∀ t l r, Machine.threads s !! t = Some (Machine.Thread (Machine.At l) r) →
       ∃ t' i e s', Machine.step (prog v) t' i s = Some (e, s'))
  ∧ length sched ≤ 11 * n.
Proof.
  intros Hv Hn Hrun.
  assert (length (Machine.ctors (Machine.sh s)) ≤ 1
          ∧ ∀ t p, Machine.result (prog v) s t = Some p →
              p ≠ nullptr ∧ Machine.ctors (Machine.sh s) = [p]) as [H1 H2].
  { destruct v; try done.
    - by eapply locked_results.
    - by eapply fenced_results.
    - by eapply meyers_results. }
  split; [done|]. split; [done|]. split; [by eapply one_identity|].
  split; [intros t l r Ht; by eapply progress|].
  pose proof (run_bounded _ _ _ _ _ Hrun) as Hb.
  rewrite (run_trace_length _ _ _ _ _ Hrun) in Hb.
  destruct v; try done; simpl in Hb; lia.
Qed.

Lemma all_returned_forallb P (s : Machine.state (Machine.label P)) :
  forallb (λ th, match Machine.pc th with Machine.Returned _ => true | _ => false end)
    (Machine.threads s) = true →
  Machine.all_returned P s.
Proof.
  intros H t th Hth. rewrite forallb_forall in H.
  apply list_elem_of_lookup_2, list_elem_of_In, H in Hth.
  destruct (Machine.pc th); [done|by eexists].
Qed.

Lemma single_instance_witness :
  ∃ tr s,
    Machine.run (prog V4) 32 window32 = Some (tr, s)
    ∧ Machine.all_returned (prog V4) s
    ∧ length (Machine.ctors (Machine.sh s)) ≤ 1
    ∧ (∀ t p, Machine.result (prog V4) s t = Some p →
         p ≠ nullptr ∧ Machine.ctors (Machine.sh s) = [p])
    ∧ (Machine.all_returned (prog V4) s →
         ∃ p, p ≠ nullptr ∧ Machine.ctors (Machine.sh s) = [p]
              ∧ ∀ t, t < 32 → Machine.result (prog V4) s t = Some p)
    ∧ (∀ t l r, Machine.threads s !! t = Some (Machine.Thread (Machine.At l) r) →
         ∃ t' i e s', Machine.step (prog V4) t' i s = Some (e, s'))
    ∧ length window32 ≤ 11 * 32.
Proof.
  destruct (Machine.run (prog V4) 32 window32) as [[tr s]|] eqn:E;
    [|by vm_compute in E].
  exists tr, s. split; [done|]. split.
  - apply all_returned_forallb. vm_compute in E. by injection E as <- <-.
  - apply (single_instance V4 32 window32 tr s); [reflexivity|lia|exact E].
Defined.

(** One thread on the machine gets what the sequential function returns
    and constructs what it constructs. *)
Lemma solo_agrees (v : variant) :
  ∃ tr s p,
    Machine.run (prog v) 1 (solo_schedule v) = Some (tr, s)
    ∧ Machine.result (prog v) s 0 = Some p
    ∧ (getInstance v true init).1 = Ok p
    ∧ Machine.ctors (Machine.sh s) = constructed (getInstance v true init).2.
Proof.
  destruct v; eexists _, _, _; (split; [vm_compute; reflexivity|]); done.
Qed.


(** * Further properties of the five functions *)

(** ** Example 3 keeps a single instance *)

(** X1. Example 3 (double-checked locking on a plain pointer), its plain
    accesses taken as untorn: in every execution of [n] threads at most one
    object is constructed, every pointer returned is that object, and once
    all threads have returned all [n] results are that same non-null
    pointer.  What it lacks is shown by [dclp_can_return_unseen]. *)
Theorem dclp_single_instance (n : nat) sched tr s :
  0 < n →
  Machine.run DCLP.prog n sched = Some (tr, s) →
  length (Machine.ctors (Machine.sh s)) ≤ 1
  ∧ (∀ t p, Machine.result DCLP.prog s t = Some p →
       p ≠ nullptr ∧ Machine.ctors (Machine.sh s) = [p])
  ∧ (Machine.all_returned DCLP.prog s →
       ∃ p, p ≠ nullptr ∧ Machine.ctors (Machine.sh s) = [p]
            ∧ ∀ t, t < n → Machine.result DCLP.prog s t = Some p).
Proof.
  intros Hn Hrun. destruct (dclp_results _ _ _ _ Hrun) as [H1 H2].
  split; [done|]. split; [done|]. by eapply one_identity.
Qed.

Lemma dclp_single_instance_witness :
  ∃ tr s,
    Machine.run DCLP.prog 3 dclp_three = Some (tr, s)
    ∧ Machine.all_returned DCLP.prog s
    ∧ length (Machine.ctors (Machine.sh s)) ≤ 1
    ∧ (∀ t p, Machine.result DCLP.prog s t = Some p →
         p ≠ nullptr ∧ Machine.ctors (Machine.sh s) = [p])
    ∧ (Machine.all_returned DCLP.prog s →
         ∃ p, p ≠ nullptr ∧ Machine.ctors (Machine.sh s) = [p]
              ∧ ∀ t, t < 3 → Machine.result DCLP.prog s t = Some p).
Proof.
  destruct (Machine.run DCLP.prog 3 dclp_three) as [[tr s]|] eqn:E;
    [|by vm_compute in E].
  exists tr, s. split; [done|]. split.
  - apply all_returned_forallb. vm_compute in E. by injection E as <- <-.
  - apply (dclp_single_instance 3 dclp_three tr s); [lia|exact E].
Defined.

(** ** The defects of examples 1 and 3 *)

(** X2. Example 1 is not thread-safe: whenever at least two threads call
    it, there is an execution in which two objects are constructed and two
    callers get different pointers. *)
Theorem lazy_can_construct_twice (n : nat) :
  2 ≤ n →
  ∃ tr s,
    Machine.run Lazy.prog n lazy_race_complete = Some (tr, s)
    ∧ Machine.result Lazy.prog s 0 = Some (heap_obj 0)
    ∧ Machine.result Lazy.prog s 1 = Some (heap_obj 1)
    ∧ Machine.ctors (Machine.sh s) = [heap_obj 0; heap_obj 1].
Proof.
  intros Hn. destruct n as [|[|k]]; [lia..|].
  eexists _, _. split; [vm_compute; reflexivity|]. done.
Qed.

Lemma lazy_can_construct_twice_witness :
  ∃ tr s,
    Machine.run Lazy.prog 32 lazy_race_complete = Some (tr, s)
    ∧ Machine.result Lazy.prog s 0 = Some (heap_obj 0)
    ∧ Machine.result Lazy.prog s 1 = Some (heap_obj 1)
    ∧ Machine.ctors (Machine.sh s) = [heap_obj 0; heap_obj 1].
Proof. apply (lazy_can_construct_twice 32). lia. Defined.

(** X3. Example 3 lets a caller return a pointer whose constructor writes
    it has not seen: whenever at least two threads call it, there is an
    execution in which thread 1 makes its first check after thread 0 has
    stored, skips the mutex, and returns the pointer without its view
    containing the object. *)
Theorem dclp_can_return_unseen (n : nat) :
  2 ≤ n →
  ∃ tr s p r,
    Machine.run DCLP.prog n dclp_late_reader = Some (tr, s)
    ∧ Machine.threads s !! 1 = Some (Machine.Thread (Machine.Returned p) r)
    ∧ p ≠ nullptr
    ∧ p ∈ Machine.ctors (Machine.sh s)
    ∧ (p ∉ Machine.v_objs (Machine.cur r))
    ∧ Machine.proj 1 tr = [Machine.EvLoad p; Machine.EvLoad p].
Proof.
  intros Hn. destruct n as [|[|k]]; [lia..|].
  eexists _, _, _, _. split; [vm_compute; reflexivity|].
  split; [reflexivity|]. split; [done|]. simpl. split; [set_solver|].
  split; [set_solver|]. reflexivity.
Qed.

Lemma dclp_can_return_unseen_witness :
  ∃ tr s p r,
    Machine.run DCLP.prog 2 dclp_late_reader = Some (tr, s)
    ∧ Machine.threads s !! 1 = Some (Machine.Thread (Machine.Returned p) r)
    ∧ p ≠ nullptr
    ∧ p ∈ Machine.ctors (Machine.sh s)
    ∧ (p ∉ Machine.v_objs (Machine.cur r))
    ∧ Machine.proj 1 tr = [Machine.EvLoad p; Machine.EvLoad p].
Proof. apply (dclp_can_return_unseen 2). lia. Defined.

(** ** Visibility without fences *)

(** X4. In example 2 (every access under the mutex) and in example 5 (the
    guard of the local static), a thread that returns a pointer sees the
    constructor writes of the object it returns. *)
Theorem locked_meyers_visibility (v : variant) n sched tr s t p r :
  v = V2 ∨ v = V5 →
  Machine.run (prog v) n sched = Some (tr, s) →
  Machine.threads s !! t = Some (Machine.Thread (Machine.Returned p) r) →
  p ≠ nullptr ∧ p ∈ Machine.ctors (Machine.sh s)
  ∧ p ∈ Machine.v_objs (Machine.cur r).
Proof.
  intros [-> | ->] Hrun Ht; destruct s as [ths σ]; simpl in *.
  - destruct (locked_invariant _ _ _ _ Hrun) as [HG HT].
    destruct (HT _ _ Ht) as [_ [[m [Hm <-]] Hs]].
    destruct HG as (_ & _ & G2 & _). destruct (G2 _ Hm) as (? & Hc & _).
    simpl in *. split; [done|]. split; [rewrite Hc; set_solver|done].
  - destruct (meyers_invariant _ _ _ _ Hrun) as [HG HT].
    destruct (HT _ _ Ht) as (-> & Hg & Hs). unfold Inv.guard_inv in HG.
    simpl in *. rewrite Hg in HG. destruct HG as [Hc _].
    split; [done|]. split; [rewrite Hc; set_solver|done].
Qed.

Lemma locked_meyers_visibility_witness :
  ∃ tr s p r,
    Machine.run (prog V2) 1 (solo_schedule V2) = Some (tr, s)
    ∧ Machine.threads s !! 0 = Some (Machine.Thread (Machine.Returned p) r)
    ∧ p ≠ nullptr ∧ p ∈ Machine.ctors (Machine.sh s)
    ∧ p ∈ Machine.v_objs (Machine.cur r).
Proof.
  destruct (Machine.run (prog V2) 1 (solo_schedule V2)) as [[tr s]|] eqn:E;
    [|by vm_compute in E].
  exists tr, s, (heap_obj 0),
    {| Machine.tmp := heap_obj 0;
       Machine.cur := {| Machine.v_slot := 1; Machine.v_objs := [heap_obj 0] |};
       Machine.acq := Machine.bot; Machine.rel := Machine.bot |}.
  split; [done|].
  assert (Machine.threads s !! 0
          = Some (Machine.Thread (Machine.Returned (heap_obj 0))
                    {| Machine.tmp := heap_obj 0;
                       Machine.cur := {| Machine.v_slot := 1;
                                         Machine.v_objs := [heap_obj 0] |};
                       Machine.acq := Machine.bot; Machine.rel := Machine.bot |}))
    as Ht by (vm_compute in E; by injection E as <- <-).
  split; [exact Ht|].
  exact (locked_meyers_visibility V2 1 (solo_schedule V2) tr s 0 _ _
           (or_introl eq_refl) E Ht).
Defined.

(** ** Mutual exclusion *)

Section Exclusion.
Import Machine Inv.

(** A thread inside the critical lines holds the mutex (the guard). *)
Lemma in_cs_owner v n sched tr s t th :
  run (prog v) n sched = Some (tr, s) →
  threads s !! t = Some th →
  in_cs v (pc th) = true →
  owner v (sh s) = Some t.
Proof.
  intros Hrun Ht Hcs. destruct v; simpl in *.
  - done.
  - destruct (locked_invariant _ _ _ _ Hrun) as [_ HT].
    destruct (HT _ _ Ht) as [_ HR]. destruct th as [[[]|] r]; simpl in *;
      try done; apply HR.
  - destruct (dclp_invariant _ _ _ _ Hrun) as [_ HT].
    destruct (HT _ _ Ht) as [_ HR]. destruct th as [[[]|] r]; simpl in *;
      try done; apply HR.
  - destruct (fenced_invariant _ _ _ _ Hrun) as [_ HT].
    destruct (HT _ _ Ht) as [_ HR]. destruct th as [[[]|] r]; simpl in *;
      try done; apply HR.
  - destruct (meyers_invariant _ _ _ _ Hrun) as [_ HT].
    pose proof (HT _ _ Ht) as HR. unfold meyers_inv in HR.
    destruct th as [[[]|] r]; simpl in *; try done;
      destruct HR as [-> _]; done.
Qed.

(** The statics a variant does not use are never touched. *)
Lemma unused_run v n sched tr s :
  run (prog v) n sched = Some (tr, s) → unused_statics v (sh s).
Proof.
  revert sched tr s. apply (run_ind (prog v) (λ _ s, unused_statics v (sh s))).
  - by destruct v.
  - intros tr s t i e s' IH (l & r & pc' & r' & Et & Ec & Eth)%step_inv.
    destruct s as [ths σ], s' as [ths' σ']. simpl in *. clear Et Eth.
    destruct v; destruct l; run_code Ec; unfold unused_statics in *;
      simpl in *; try done; destruct IH; try done; congruence.
Qed.

End Exclusion.

(** X5. Mutual exclusion: in every execution of every variant, while one
    thread is between [lock()] and [unlock()] (for example 5: running the
    initialiser of the local static), no other thread is. *)
Theorem mutual_exclusion (v : variant) n sched tr s t1 t2 th1 th2 :
  Machine.run (prog v) n sched = Some (tr, s) →
  Machine.threads s !! t1 = Some th1 →
  Machine.threads s !! t2 = Some th2 →
  t1 ≠ t2 →
  in_cs v (Machine.pc th1) = true →
  in_cs v (Machine.pc th2) = false.
Proof.
  intros Hrun H1 H2 Hne C1.
  destruct (in_cs v (Machine.pc th2)) eqn:C2; [|done].
  pose proof (in_cs_owner _ _ _ _ _ _ _ Hrun H1 C1) as O1.
  pose proof (in_cs_owner _ _ _ _ _ _ _ Hrun H2 C2) as O2.
  congruence.
Qed.

Lemma mutual_exclusion_witness :
  ∃ tr s th1 th2,
    Machine.run (prog V4) 2 (replicate 3 (1, 0) ++ replicate 5 (0, 0))
    = Some (tr, s)
    ∧ Machine.threads s !! 0 = Some th1
    ∧ Machine.threads s !! 1 = Some th2
    ∧ Machine.pc th1 = Machine.At Fenced.L103
    ∧ Machine.pc th2 = Machine.At Fenced.L101
    ∧ in_cs V4 (Machine.pc th2) = false.
Proof.
  destruct (Machine.run (prog V4) 2 (replicate 3 (1, 0) ++ replicate 5 (0, 0)))
    as [[tr s]|] eqn:E; [|by vm_compute in E].
  assert (∃ th1 th2, Machine.threads s !! 0 = Some th1
                     ∧ Machine.threads s !! 1 = Some th2
                     ∧ Machine.pc th1 = Machine.At Fenced.L103
                     ∧ Machine.pc th2 = Machine.At Fenced.L101)
    as (th1 & th2 & H1 & H2 & P1 & P2).
  { vm_compute in E. injection E as <- <-. by eexists _, _. }
  exists tr, s, th1, th2. repeat (split; [done|]).
  apply (mutual_exclusion V4 2 _ tr s 0 1 th1 th2 E H1 H2); [lia|].
  destruct th1 as [pc1 r1]. simpl in P1. subst pc1. reflexivity.
Defined.

(** X6. No lock is left behind: whoever holds the mutex (the guard) is a
    thread between [lock()] and [unlock()]; so once every thread has
    returned the mutex is free and no initialisation is in progress. *)
Theorem no_lock_left_behind (v : variant) n sched tr s :
  Machine.run (prog v) n sched = Some (tr, s) →
  (∀ t, owner v (Machine.sh s) = Some t →
     ∃ th, Machine.threads s !! t = Some th ∧ in_cs v (Machine.pc th) = true)
  ∧ (Machine.all_returned (prog v) s →
       Machine.mutex (Machine.sh s) = None
       ∧ ∀ t, Machine.guard (Machine.sh s) ≠ Machine.InProgress t).
Proof.
  intros Hrun. pose proof (owner_run _ _ _ _ _ Hrun) as Ho.
  split; [exact Ho|]. intros Hall.
  assert (owner v (Machine.sh s) = None) as Hnone.
  { destruct (owner v (Machine.sh s)) as [t|] eqn:E; [|done].
    destruct (Ho _ E) as (th & Ht & Hcs). destruct (Hall _ _ Ht) as [p Hp].
    rewrite Hp in Hcs. by destruct v. }
  pose proof (unused_run _ _ _ _ _ Hrun) as Hu.
  destruct v; simpl in *.
  - destruct Hu as [-> ->]. done.
  - rewrite Hu. done.
  - rewrite Hu. done.
  - rewrite Hu. done.
  - destruct Hu as [-> _]. split; [done|]. intros t Ht. by rewrite Ht in Hnone.
Qed.

Lemma no_lock_left_behind_witness :
  ∃ tr s,
    Machine.run (prog V4) 32 window32 = Some (tr, s)
    ∧ Machine.all_returned (prog V4) s
    ∧ (∀ t, owner V4 (Machine.sh s) = Some t →
         ∃ th, Machine.threads s !! t = Some th
               ∧ in_cs V4 (Machine.pc th) = true)
    ∧ (Machine.all_returned (prog V4) s →
         Machine.mutex (Machine.sh s) = None
         ∧ ∀ t, Machine.guard (Machine.sh s) ≠ Machine.InProgress t).
Proof.
  destruct (Machine.run (prog V4) 32 window32) as [[tr s]|] eqn:E;
    [|by vm_compute in E].
  exists tr, s. split; [done|]. split.
  - apply all_returned_forallb. vm_compute in E. by injection E as <- <-.
  - apply (no_lock_left_behind V4 32 window32 tr s E).
Defined.

(** ** Events of examples 1, 2 and 5 *)

Ltac open_more_paths :=
  unfold locked_trace, locked_found, locked_construct, lazy_trace,
    meyers_trace, Machine.if_null, Machine.goto, Machine.return_tmp,
    is_null in *;
  simpl in *.

Lemma locked_trace_run n sched tr s :
  Machine.run Locked.prog n sched = Some (tr, s) →
  ∀ t th, Machine.threads s !! t = Some th → locked_trace (Machine.proj t tr) th.
Proof.
  apply (trace_run Locked.prog locked_trace); [done|].
  intros evs t l r i σ e pc' r' σ' HT Hc.
  destruct l; run_code Hc; open_more_paths; repeat case_match; simplify_eq/=;
    try done;
    try (destruct HT as [(q' & ? & ->)| ->]);
    try (destruct HT as [(q' & ? & ->)|(q' & ->)]);
    try (left; eexists; split; [|reflexivity]; done);
    try (eexists; left; split; [|reflexivity]; done);
    eauto 8.
Qed.

Lemma lazy_trace_run n sched tr s :
  Machine.run Lazy.prog n sched = Some (tr, s) →
  ∀ t th, Machine.threads s !! t = Some th → lazy_trace (Machine.proj t tr) th.
Proof.
  apply (trace_run Lazy.prog lazy_trace); [done|].
  intros evs t l r i σ e pc' r' σ' HT Hc.
  destruct l; run_code Hc; open_more_paths; repeat case_match; simplify_eq/=;
    try done;
    try (destruct HT as [(q' & ? & ->)| ->]);
    try (left; eexists; split; [|reflexivity]; done);
    try (eexists; left; split; [|reflexivity]; done);
    eauto 8.
Qed.

Lemma meyers_trace_run n sched tr s :
  Machine.run Meyers.prog n sched = Some (tr, s) →
  ∀ t th, Machine.threads s !! t = Some th → meyers_trace (Machine.proj t tr) th.
Proof.
  apply (trace_run Meyers.prog meyers_trace); [done|].
  intros evs t l r i σ e pc' r' σ' HT Hc.
  destruct l; run_code Hc; open_more_paths; repeat case_match; simplify_eq/=;
    try done; try (destruct HT as [->| ->]); eauto.
Qed.

(** X7. Example 2 takes the mutex on every call: the events of a call that
    has returned are [lock], the check, (on an unset slot) construction and
    store, the read for [return], [unlock]; a thread still inside follows
    the same sequence. *)
Theorem locked_locks_every_call n sched tr s :
  Machine.run Locked.prog n sched = Some (tr, s) →
  (∀ t th, Machine.threads s !! t = Some th → locked_trace (Machine.proj t tr) th)
  ∧ ∀ t p, Machine.result Locked.prog s t = Some p →
      ∃ q,
        (q ≠ nullptr
         ∧ Machine.proj t tr
           = [Machine.EvLock; Machine.EvLoad q; Machine.EvLoad p;
              Machine.EvUnlock])
        ∨ Machine.proj t tr
          = [Machine.EvLock; Machine.EvLoad nullptr; Machine.EvNew q;
             Machine.EvStore q; Machine.EvLoad p; Machine.EvUnlock].
Proof.
  intros Hrun. pose proof (locked_trace_run _ _ _ _ Hrun) as HTr.
  split; [done|]. intros t p [r Ht]%result_Some. apply (HTr _ _ Ht).
Qed.

Lemma locked_locks_every_call_witness :
  ∃ tr s,
    Machine.run Locked.prog 2
      (solo_schedule V2 ++ [(1, 0); (1, 1); (1, 1); (1, 0)]) = Some (tr, s)
    ∧ Machine.proj 1 tr
      = [Machine.EvLock; Machine.EvLoad (heap_obj 0);
         Machine.EvLoad (heap_obj 0); Machine.EvUnlock]
    ∧ (∀ t th, Machine.threads s !! t = Some th →
         locked_trace (Machine.proj t tr) th)
    ∧ ∀ t p, Machine.result Locked.prog s t = Some p →
        ∃ q,
          (q ≠ nullptr
           ∧ Machine.proj t tr
             = [Machine.EvLock; Machine.EvLoad q; Machine.EvLoad p;
                Machine.EvUnlock])
          ∨ Machine.proj t tr
            = [Machine.EvLock; Machine.EvLoad nullptr; Machine.EvNew q;
               Machine.EvStore q; Machine.EvLoad p; Machine.EvUnlock].
Proof.
  destruct (Machine.run Locked.prog 2
              (solo_schedule V2 ++ [(1, 0); (1, 1); (1, 1); (1, 0)]))
    as [[tr s]|] eqn:E; [|by vm_compute in E].
  exists tr, s. split; [done|].
  assert (Hc := locked_locks_every_call 2 _ tr s E).
  vm_compute in E. injection E as <- <-. split; [reflexivity|exact Hc].
Defined.

(** X8. Example 1 never touches the mutex and never fences: the events of
    a call that has returned are the check and the read for [return], with
    construction and store between them when the check found the slot
    unset. *)
Theorem lazy_unsynchronised n sched tr s :
  Machine.run Lazy.prog n sched = Some (tr, s) →
  (∀ t th, Machine.threads s !! t = Some th → lazy_trace (Machine.proj t tr) th)
  ∧ ∀ t p, Machine.result Lazy.prog s t = Some p →
      ∃ q,
        (q ≠ nullptr
         ∧ Machine.proj t tr = [Machine.EvLoad q; Machine.EvLoad p])
        ∨ Machine.proj t tr
          = [Machine.EvLoad nullptr; Machine.EvNew q; Machine.EvStore q;
             Machine.EvLoad p].
Proof.
  intros Hrun. pose proof (lazy_trace_run _ _ _ _ Hrun) as HTr.
  split; [done|]. intros t p [r Ht]%result_Some. apply (HTr _ _ Ht).
Qed.

Lemma lazy_unsynchronised_witness :
  ∃ tr s,
    Machine.run Lazy.prog 2 lazy_race_complete = Some (tr, s)
    ∧ Machine.proj 1 tr
      = [Machine.EvLoad nullptr; Machine.EvNew (heap_obj 1);
         Machine.EvStore (heap_obj 1); Machine.EvLoad (heap_obj 1)]
    ∧ (∀ t th, Machine.threads s !! t = Some th →
         lazy_trace (Machine.proj t tr) th)
    ∧ ∀ t p, Machine.result Lazy.prog s t = Some p →
        ∃ q,
          (q ≠ nullptr
           ∧ Machine.proj t tr = [Machine.EvLoad q; Machine.EvLoad p])
          ∨ Machine.proj t tr
            = [Machine.EvLoad nullptr; Machine.EvNew q; Machine.EvStore q;
               Machine.EvLoad p].
Proof.
  destruct (Machine.run Lazy.prog 2 lazy_race_complete)
    as [[tr s]|] eqn:E; [|by vm_compute in E].
  exists tr, s. split; [done|].
  assert (Hc := lazy_unsynchronised 2 _ tr s E).
  vm_compute in E. injection E as <- <-. split; [reflexivity|exact Hc].
Defined.

(** X9. Example 5: a call returns the address of the local static; its
    events are the guard found released and the return, or the guard
    taken, the constructor, the guard released and the return. *)
Theorem meyers_guarded_once n sched tr s :
  Machine.run Meyers.prog n sched = Some (tr, s) →
  (∀ t th, Machine.threads s !! t = Some th → meyers_trace (Machine.proj t tr) th)
  ∧ ∀ t p, Machine.result Meyers.prog s t = Some p →
      p = static_obj
      ∧ (Machine.proj t tr = [Machine.EvGuard false; Machine.EvLocal]
         ∨ Machine.proj t tr
           = [Machine.EvGuard true; Machine.EvNew static_obj;
              Machine.EvGuardDone; Machine.EvLocal]).
Proof.
  intros Hrun. pose proof (meyers_trace_run _ _ _ _ Hrun) as HTr.
  split; [done|]. intros t p [r Ht]%result_Some. apply (HTr _ _ Ht).
Qed.

Lemma meyers_guarded_once_witness :
  ∃ tr s,
    Machine.run Meyers.prog 2 (solo_schedule V5 ++ [(1, 0); (1, 0)])
    = Some (tr, s)
    ∧ Machine.proj 1 tr = [Machine.EvGuard false; Machine.EvLocal]
    ∧ (∀ t th, Machine.threads s !! t = Some th →
         meyers_trace (Machine.proj t tr) th)
    ∧ ∀ t p, Machine.result Meyers.prog s t = Some p →
        p = static_obj
        ∧ (Machine.proj t tr = [Machine.EvGuard false; Machine.EvLocal]
           ∨ Machine.proj t tr
             = [Machine.EvGuard true; Machine.EvNew static_obj;
                Machine.EvGuardDone; Machine.EvLocal]).
Proof.
  destruct (Machine.run Meyers.prog 2 (solo_schedule V5 ++ [(1, 0); (1, 0)]))
    as [[tr s]|] eqn:E; [|by vm_compute in E].
  exists tr, s. split; [done|].
  assert (Hc := meyers_guarded_once 2 _ tr s E).
  vm_compute in E. injection E as <- <-. split; [reflexivity|exact Hc].
Defined.

(** ** Every call of every variant comes to an end *)

(** X10. In every variant no execution of [n] threads has more steps than
    [n] times the longest path through [getInstance()] (4, 6, 7, 11 and 4
    lines), and while a thread is inside the function some thread can take
    a step. *)
Theorem calls_terminate (v : variant) n sched tr s :
  Machine.run (prog v) n sched = Some (tr, s) →
  length sched
  ≤ n * match v with V1 => 4 | V2 => 6 | V3 => 7 | V4 => 11 | V5 => 4 end
  ∧ (∀ t l r, Machine.threads s !! t = Some (Machine.Thread (Machine.At l) r) →
       ∃ t' i e s', Machine.step (prog v) t' i s = Some (e, s')).
Proof.
  intros Hrun. split.
  - pose proof (run_bounded _ _ _ _ _ Hrun) as Hb.
    rewrite (run_trace_length _ _ _ _ _ Hrun) in Hb.
    destruct v; simpl in Hb; lia.
  - intros t l r Ht. by eapply progress.
Qed.

Lemma calls_terminate_witness :
  ∃ tr s,
    Machine.run (prog V3) 3 dclp_three = Some (tr, s)
    ∧ length dclp_three ≤ 3 * 7
    ∧ (∀ t l r, Machine.threads s !! t = Some (Machine.Thread (Machine.At l) r) →
         ∃ t' i e s', Machine.step (prog V3) t' i s = Some (e, s')).
Proof.
  destruct (Machine.run (prog V3) 3 dclp_three) as [[tr s]|] eqn:E;
    [|by vm_compute in E].
  exists tr, s. split; [done|]. apply (calls_terminate V3 3 dclp_three tr s E).
Defined.

(** ** The sequential functions on a held mutex, and what they leave alone *)

(** X11. When the mutex is already held: example 2 waits whatever the
    slot; examples 3 and 4 wait only when the slot is unset and otherwise
    return the slot without touching anything; examples 1 and 5 never wait
    and do what they do on a free mutex. *)
Theorem held_mutex (ok : bool) (w : world) :
  m_mutex w = true →
  getInstance V2 ok w = (Blocked, w)
  ∧ (∀ v, v = V3 ∨ v = V4 →
       getInstance v ok w
       = if is_null (m_instance w) then (Blocked, w)
         else (Ok (m_instance w), w))
  ∧ (∀ v, v = V1 ∨ v = V5 →
       (getInstance v ok w).1 ≠ Blocked
       ∧ getInstance v ok w
         = ((getInstance v ok (set_mutex false w)).1,
            set_mutex true (getInstance v ok (set_mutex false w)).2)).
Proof.
  destruct w as [p m g c]. simpl. intros ->. split; [|split].
  - unfold_seq. done.
  - intros v [-> | ->]; unfold_seq; simpl; by destruct p.
  - intros v [-> | ->]; unfold_seq; simpl.
    + destruct p, ok; done.
    + destruct g, ok; done.
Qed.

Lemma held_mutex_witness :
  getInstance V2 true (set_mutex true init) = (Blocked, set_mutex true init)
  ∧ (∀ v, v = V3 ∨ v = V4 →
       getInstance v true (set_mutex true init)
       = if is_null (m_instance (set_mutex true init))
         then (Blocked, set_mutex true init)
         else (Ok (m_instance (set_mutex true init)), set_mutex true init))
  ∧ (∀ v, v = V1 ∨ v = V5 →
       (getInstance v true (set_mutex true init)).1 ≠ Blocked
       ∧ getInstance v true (set_mutex true init)
         = ((getInstance v true (set_mutex false (set_mutex true init))).1,
            set_mutex true
              (getInstance v true (set_mutex false (set_mutex true init))).2)).
Proof. apply (held_mutex true (set_mutex true init)). reflexivity. Defined.

(** X14. What a call leaves alone: started with the mutex free it ends
    with the mutex free, whatever its outcome; the list of constructed
    objects is unchanged or has one more element, and then the call
    returned that element and the slot was unset; examples 1 to 4 never
    touch the guard of the local static and example 5 never touches
    [m_instance]. *)
Theorem call_frame (v : variant) (ok : bool) (w : world) r w' :
  m_mutex w = false →
  getInstance v ok w = (r, w') →
  m_mutex w' = false
  ∧ (constructed w' = constructed w
     ∨ ∃ p, constructed w' = constructed w ++ [p] ∧ r = Ok p
            ∧ slot v w = nullptr ∧ slot v w' = p)
  ∧ (v ≠ V5 → instance_guard w' = instance_guard w)
  ∧ (v = V5 → m_instance w' = m_instance w).
Proof.
  intros Hm E. destruct (decide (slot v w = nullptr)) as [Hs|Hs].
  - destruct ok.
    + rewrite getInstance_unset_ok in E by done. injection E as <- <-.
      rewrite install_mutex. split; [done|]. split.
      * right. exists (fresh v w).
        by rewrite install_constructed, install_slot.
      * by destruct v.
    + rewrite getInstance_unset_fail in E by done. injection E as <- <-. auto.
  - rewrite getInstance_set in E by done. injection E as <- <-. auto.
Qed.

Lemma call_frame_witness :
  m_mutex (getInstance V3 true init).2 = false
  ∧ (constructed (getInstance V3 true init).2 = constructed init
     ∨ ∃ p, constructed (getInstance V3 true init).2 = constructed init ++ [p]
            ∧ (getInstance V3 true init).1 = Ok p
            ∧ slot V3 init = nullptr ∧ slot V3 (getInstance V3 true init).2 = p)
  ∧ (V3 ≠ V5 → instance_guard (getInstance V3 true init).2 = instance_guard init)
  ∧ (V3 = V5 → m_instance (getInstance V3 true init).2 = m_instance init).
Proof.
  apply (call_frame V3 true init (getInstance V3 true init).1
           (getInstance V3 true init).2); reflexivity.
Defined.

(** ** The two layers agree *)

Section Agreement.
Import Machine Inv.

(** Objects are named in the order of their construction. *)
Lemma ctors_named_run v n sched tr s :
  run (prog v) n sched = Some (tr, s) → ctors_named v (sh s).
Proof.
  revert sched tr s. apply (run_ind (prog v) (λ _ s, ctors_named v (sh s))).
  - destruct v; simpl; try (by intros [|?] ?); by intros ? ?%elem_of_nil.
  - intros tr s t i e s' IH (l & r & pc' & r' & Et & Ec & Eth)%step_inv.
    destruct s as [ths σ], s' as [ths' σ']. simpl in *. clear Et Eth.
    assert (ctors σ' = ctors σ
            ∨ ctors σ' = ctors σ
                         ++ [match v with
                             | V5 => static_obj
                             | _ => heap_obj (length (ctors σ))
                             end]) as [E | E].
    { destruct v; destruct l; run_code Ec; simpl; auto. }
    + destruct v; simpl in *; by rewrite E.
    + destruct v; simpl in *; rewrite E;
        try (intros k q [Hq|[Hk Hq]]%lookup_app_Some; [by apply IH|];
             destruct (k - length (ctors σ)) as [|?] eqn:Ek; simplify_eq/=;
             f_equal; lia).
      intros q [Hq| ->%list_elem_of_singleton]%elem_of_app; [by apply IH|done].
Qed.

(** Example 1 run by a single thread. *)
Lemma lazy_solo_run sched tr s :
  run Lazy.prog 1 sched = Some (tr, s) →
  ∃ th, threads s = [th] ∧ lazy_solo (sh s) th.
Proof.
  revert sched tr s.
  apply (run_ind Lazy.prog (λ _ s, ∃ th, threads s = [th] ∧ lazy_solo (sh s) th)).
  - eexists. split; [reflexivity|]. done.
  - intros tr s t i e s' (th & Hth & HT) (l & r & pc' & r' & Et & Ec & Eth)%step_inv.
    rewrite Hth in Et, Eth. destruct t as [|t]; [|done]. simpl in Et, Eth.
    injection Et as ->. exists (Thread pc' r'). split; [done|].
    unfold lazy_solo in *. simpl in HT.
    destruct l; apply next_Some in Ec as [Hc ->]; simpl in *.
    + destruct HT as [Hh Hc0].
      apply load_Some in Hc as (w & Hle & Hw & -> & -> & Hv & ->).
      rewrite Hh in Hw. destruct i as [|i]; [|done]. by simplify_eq/=.
    + destruct HT as [Hh Hc0]. injection Hc as <- <- <-. simpl.
      rewrite Hc0. done.
    + destruct HT as (Hh & Hc0 & Htmp). injection Hc as <- <- <-. simpl.
      rewrite Hh, Htmp. simpl. split; [done|]. split; [lia|].
      by intros [|?] m [= <-].
    + destruct HT as (Hc0 & Hv & Hh).
      apply load_Some in Hc as (w & Hle & Hw & -> & -> & Hv' & ->).
      destruct i as [|i]; [lia|]. unfold return_tmp. split; [|done].
      by eapply Hh.
Qed.

End Agreement.

Lemma singleton_elem {A} (l : list A) x : l = [x] → x ∈ l.
Proof. intros ->. set_solver. Qed.

Lemma singleton_head {A} (l : list A) x : l = [x] → l !! 0 = Some x.
Proof. by intros ->. Qed.

(** X12. The machine and the sequential functions agree: in examples 2 to
    5 with any number of threads, and in example 1 with a single thread,
    every thread that returns gets the pointer the sequential function
    returns on the fresh statics, and the objects constructed are those the
    sequential call constructs. *)
Theorem machine_agrees_with_sequential (v : variant) n sched tr s t p :
  v ≠ V1 ∨ n = 1 →
  Machine.run (prog v) n sched = Some (tr, s) →
  Machine.result (prog v) s t = Some p →
  (getInstance v true init).1 = Ok p
  ∧ Machine.ctors (Machine.sh s) = constructed (getInstance v true init).2.
Proof.
  intros Hv Hrun Hres.
  assert (Machine.ctors (Machine.sh s) = [p] ∧ p = fresh v init) as [Hc ->].
  { pose proof (ctors_named_run _ _ _ _ _ Hrun) as Hn.
    assert (v ≠ V1 → Machine.ctors (Machine.sh s) = [p]) as Hone.
    { intros Hv1. destruct v; [done|..].
      - by eapply locked_results.
      - by eapply dclp_results.
      - by eapply fenced_results.
      - by eapply meyers_results. }
    destruct v; simpl in *.
    - destruct Hv as [?| ->]; [done|].
      destruct (lazy_solo_run _ _ _ Hrun) as (th & Hth & HT).
      apply result_Some in Hres as [r Ht]. rewrite Hth in Ht.
      destruct t as [|?]; [|done]. simpl in Ht. injection Ht as ->.
      destruct HT as [-> Hc]. split; [exact Hc|done].
    - pose proof (Hone ltac:(done)) as Hc. split; [done|].
      apply (Hn 0), singleton_head, Hc.
    - pose proof (Hone ltac:(done)) as Hc. split; [done|].
      apply (Hn 0), singleton_head, Hc.
    - pose proof (Hone ltac:(done)) as Hc. split; [done|].
      apply (Hn 0), singleton_head, Hc.
    - pose proof (Hone ltac:(done)) as Hc. split; [done|].
      apply Hn, singleton_elem, Hc. }
  rewrite getInstance_unset_ok by (by destruct v). simpl.
  rewrite install_constructed. done.
Qed.

Lemma machine_agrees_with_sequential_witness :
  ∃ tr s,
    Machine.run (prog V4) 32 window32 = Some (tr, s)
    ∧ Machine.result (prog V4) s 31 = Some (heap_obj 0)
    ∧ (getInstance V4 true init).1 = Ok (heap_obj 0)
    ∧ Machine.ctors (Machine.sh s) = constructed (getInstance V4 true init).2.
Proof.
  destruct (Machine.run (prog V4) 32 window32) as [[tr s]|] eqn:E;
    [|by vm_compute in E].
  exists tr, s. split; [done|].
  assert (Machine.result (prog V4) s 31 = Some (heap_obj 0)) as Hr
    by (vm_compute in E; by injection E as <- <-).
  split; [done|].
  apply (machine_agrees_with_sequential V4 32 window32 tr s 31 (heap_obj 0));
    [by left|exact E|exact Hr].
Defined.

(** ** How far the race of example 1 goes *)

Section LazyLeak.
Import Machine Inv.

Lemma lazy_budget n sched tr s :
  run Lazy.prog n sched = Some (tr, s) →
  length (ctors (sh s)) + sum_list (may_construct ∘ pc <$> threads s) ≤ n.
Proof.
  revert sched tr s.
  apply (run_ind Lazy.prog (λ _ s,
    length (ctors (sh s)) + sum_list (may_construct ∘ pc <$> threads s) ≤ n)).
  - simpl. rewrite fmap_replicate, sum_list_replicate. simpl. lia.
  - intros tr s t i e s' IH (l & r & pc' & r' & Et & Ec & Eth)%step_inv.
    rewrite Eth.
    assert (length (ctors (sh s')) + may_construct pc'
            ≤ length (ctors (sh s)) + may_construct (At l)) as Hd.
    { destruct s as [ths σ], s' as [ths' σ']. simpl in *. clear Et Eth IH.
      destruct l; apply next_Some in Ec as [Hc ->]; simpl in *.
      - apply load_Some in Hc as (w & _ & _ & _ & -> & _ & ->).
        unfold if_null. destruct (is_null (val w)); simpl; lia.
      - injection Hc as <- <- <-. simpl. rewrite length_app. simpl. lia.
      - injection Hc as <- <- <-. simpl. lia.
      - apply load_Some in Hc as (w & _ & _ & _ & _ & _ & ->). simpl. lia. }
    match type of IH with
    | ?C + ?S ≤ _ =>
        match goal with
        | |- ?C' + ?S' ≤ _ =>
            assert (S' + may_construct (At l) = S + may_construct pc') as Hs
              by exact (sum_insert (may_construct ∘ pc) _ _ _ (Thread pc' r') Et);
            change (C' + may_construct pc' ≤ C + may_construct (At l)) in Hd;
            revert IH Hs Hd; generalize S' S C' C
        end
    end.
    generalize (may_construct pc') (may_construct (At l)). intros. lia.
Qed.

End LazyLeak.

(** X13. The race of example 1 is bounded: [n] threads construct at most
    [n] objects (each thread at most one), the objects are pairwise
    distinct, and every pointer returned is one of them. *)
Theorem lazy_one_object_per_thread n sched tr s :
  Machine.run Lazy.prog n sched = Some (tr, s) →
  length (Machine.ctors (Machine.sh s)) ≤ n
  ∧ NoDup (Machine.ctors (Machine.sh s))
  ∧ ∀ t p, Machine.result Lazy.prog s t = Some p →
      p ≠ nullptr ∧ p ∈ Machine.ctors (Machine.sh s).
Proof.
  intros Hrun. split; [|split].
  - pose proof (lazy_budget _ _ _ _ Hrun). lia.
  - pose proof (ctors_named_run V1 _ _ _ _ Hrun) as Hn. simpl in Hn.
    apply NoDup_alt. intros i j q Hi Hj.
    apply Hn in Hi, Hj. congruence.
  - intros t p [r Ht]%result_Some.
    destruct (lazy_invariant _ _ _ _ Hrun) as [_ HT].
    by destruct (HT _ _ Ht) as [_ ?].
Qed.

Lemma lazy_one_object_per_thread_witness :
  ∃ tr s,
    Machine.run Lazy.prog 2 lazy_race_complete = Some (tr, s)
    ∧ length (Machine.ctors (Machine.sh s)) = 2
    ∧ length (Machine.ctors (Machine.sh s)) ≤ 2
    ∧ NoDup (Machine.ctors (Machine.sh s))
    ∧ ∀ t p, Machine.result Lazy.prog s t = Some p →
        p ≠ nullptr ∧ p ∈ Machine.ctors (Machine.sh s).
Proof.
  destruct (Machine.run Lazy.prog 2 lazy_race_complete)
    as [[tr s]|] eqn:E; [|by vm_compute in E].
  exists tr, s. split; [done|].
  assert (Hc := lazy_one_object_per_thread 2 _ tr s E).
  vm_compute in E. injection E as <- <-. split; [reflexivity|exact Hc].
Defined.

(** ** Retrying after failed constructions *)

(** X15. Calls by one thread on an unset slot: each call throws as long as
    its construction fails; the first call whose construction succeeds
    installs the object; from then on every call returns it, whether or not
    a construction would succeed; and if all constructions fail the statics
    are untouched. *)
Theorem retry_until_success (v : variant) (oks : list bool) (w : world) :
  m_mutex w = false →
  slot v w = nullptr →
  (calls v oks w).1
  = replicate (failures oks) Throw
    ++ replicate (length oks - failures oks) (Ok (fresh v w))
  ∧ (calls v oks w).2
    = if decide (failures oks = length oks) then w else install v w.
Proof.
  intros Hm Hs. induction oks as [|[] oks IH].
  - done.
  - cbn [calls]. rewrite getInstance_unset_ok by done.
    rewrite calls_set.
    + simpl. rewrite install_slot. done.
    + by rewrite install_mutex.
    + rewrite install_slot. apply fresh_not_null.
  - cbn [calls]. rewrite getInstance_unset_fail by done.
    destruct (calls v oks w) as [rs w1]. simpl in *. destruct IH as [-> ->].
    split; [done|]. repeat case_decide; try done; lia.
Qed.

Lemma retry_until_success_witness :
  (calls V5 [false; false; true; false] init).1
  = replicate (failures [false; false; true; false]) Throw
    ++ replicate (length [false; false; true; false]
                  - failures [false; false; true; false])
         (Ok (fresh V5 init))
  ∧ (calls V5 [false; false; true; false] init).2
    = if decide (failures [false; false; true; false]
                 = length [false; false; true; false])
      then init else install V5 init.
Proof.
  apply (retry_until_success V5 [false; false; true; false] init); reflexivity.
Defined.
